(** * csv-diff-tool: the comparison core and the change tracker

    A shallow embedding of [src/csv_diff/core.py] (module [Core]) and of
    [src/change_tracker.py] (module [ChangeTracker], over the string
    operations of [PyStr] and the sequence matcher of [Difflib]), followed by
    the properties of the specification stated over it ([CoreSpec],
    [DifflibSpec], [TrackerSpec]).

    Conventions of the embedding.
    - A Python [str] is the [string] of its UTF-8 bytes; on ASCII text
      ([isascii]) a byte is a character.  Concatenation, [in], [replace] and
      [split(",")] with ASCII arguments act on the bytes as Python does on
      the characters.  [str.lower], [str.upper], the white-space [str.strip]
      and [str.split], and the sequence matcher are modelled on ASCII text:
      on other text Python folds the case of more letters, trims more kinds
      of white space and counts characters, not bytes, so statements that
      depend on these functions are made for ASCII values.  The secondary
      name of the tracker, which is not ASCII as a rule, is trimmed by
      [ustrip], which knows every white-space character of Python.
    - A [Dict[str, str]] row is a [gmap string string]; [row.get(k, "")] is
      [row_get].  A dict keyed by tuples is a [gmap (list string) _].
    - Python iterates a [set] in hash order, which the language leaves
      unspecified; the model iterates it in the order of [elements].  Every
      statement below is about membership and multiplicity, never about that
      order.
    - File reading ([_read_csv], [pd.read_csv]) and report writing are outside
      the embedding: functions start from the loaded headers and rows. *)

From Stdlib Require Import Ascii String.
From stdpp Require Import gmap strings list fin_maps.

#[local] Set Warnings "-clear-no-such-hyp".

Open Scope string_scope.
Open Scope list_scope.
Open Scope nat_scope.

(** ** [src/csv_diff/core.py] *)
Module Core.

Abbreviation Row := (gmap string string).

(** [CellChange], [RowChange] and [DiffResult] are the three frozen
    dataclasses.  A key is a tuple of strings (keyed and multiset mode) or the
    one-element tuple [(idx,)] (ordered mode). *)
Record CellChange := mkCellChange {
  column : string;
  old : option string;
  new : option string
}.

Inductive Key :=
| KStr (t : list string)
| KIdx (idx : nat).

Record RowChange := mkRowChange {
  kind : string;
  key : Key;
  changes : list CellChange;
  row_old : option Row;
  row_new : option Row
}.

Record DiffResult := mkDiffResult {
  added : list RowChange;
  removed : list RowChange;
  modified : list RowChange;
  raw_diff : option string
}.

(** The error kind of the specification.  No statement of [core.py] raises
    it; the outcome type of [compare_csv_files] keeps room for it so that
    statements about failure can be written. *)
Inductive Error := ConfigurationError.

#[global] Instance CellChange_eq_dec : EqDecision CellChange.
Proof. solve_decision. Defined.
#[global] Instance Key_eq_dec : EqDecision Key.
Proof. solve_decision. Defined.

(** [row.get(col, "")] *)
Definition row_get (r : Row) (col : string) : string := default "" (r !! col).

(** [_make_key]: [tuple(row.get(k, "") for k in keys)] *)
Definition _make_key (row : Row) (keys : list string) : list string :=
  (λ k, row_get row k) <$> keys.

(** [{_make_key(r, keys): r for r in rows}]: a later row overwrites an
    earlier one with the same key. *)
Definition key_map (keys : list string) (rows : list Row) : gmap (list string) Row :=
  foldl (λ m r, <[_make_key r keys := r]> m) ∅ rows.

(** [list(dict.fromkeys(l))]: the first occurrence of each name, in order. *)
Fixpoint fromkeys_from (seen : list string) (l : list string) : list string :=
  match l with
  | [] => []
  | x :: l' =>
      if decide (x ∈ seen) then fromkeys_from seen l'
      else x :: fromkeys_from (x :: seen) l'
  end.

Definition dict_fromkeys (l : list string) : list string := fromkeys_from [] l.

(** The inner loop over [all_columns], shared by the keyed and the ordered
    comparison. *)
Definition cell_change (r1 r2 : Row) (col : string) : option CellChange :=
  let v1 := row_get r1 col in
  let v2 := row_get r2 col in
  if decide (v1 = v2) then None else Some (mkCellChange col (Some v1) (Some v2)).

Definition cell_changes (all_columns : list string) (r1 r2 : Row) : list CellChange :=
  omap (cell_change r1 r2) all_columns.

(** [if changes: modified.append(...)] *)
Definition modified_entry (all_columns : list string) (k : Key) (r1 r2 : Row)
  : option RowChange :=
  match cell_changes all_columns r1 r2 with
  | [] => None
  | ch => Some (mkRowChange "modified" k ch (Some r1) (Some r2))
  end.

(** [_compare_unordered]; the result is [(added, removed, modified)].
    [map1[k]] is read as [map1 !! k]: the key comes from the map's own key
    set, so the lookup succeeds.  The three loops run over sets of keys; the
    order of [elements] stands for their iteration order, which Python does
    not fix, so the three lists are meaningful up to permutation. *)
Definition _compare_unordered (headers1 : list string) (rows1 : list Row)
    (headers2 : list string) (rows2 : list Row) (keys : list string)
  : list RowChange * list RowChange * list RowChange :=
  let map1 := key_map keys rows1 in
  let map2 := key_map keys rows2 in
  let all_columns := dict_fromkeys (headers1 ++ headers2) in
  let removed :=
    (λ k, mkRowChange "removed" (KStr k) [] (map1 !! k) None)
      <$> elements (dom map1 ∖ dom map2) in
  let added :=
    (λ k, mkRowChange "added" (KStr k) [] None (map2 !! k))
      <$> elements (dom map2 ∖ dom map1) in
  let modified :=
    omap (λ k, r1 ← map1 !! k; r2 ← map2 !! k;
               modified_entry all_columns (KStr k) r1 r2)
         (elements (dom map1 ∩ dom map2)) in
  (added, removed, modified).

(** [_compare_ordered]: one step of [for idx in range(max_len)], on the three
    accumulators. *)
Definition ordered_step (all_columns : list string) (rows1 rows2 : list Row)
    (acc : list RowChange * list RowChange * list RowChange) (idx : nat)
  : list RowChange * list RowChange * list RowChange :=
  let '(added, removed, modified) := acc in
  match rows1 !! idx with
  | None =>
      (added ++ [mkRowChange "added" (KIdx idx) [] None (rows2 !! idx)],
       removed, modified)
  | Some r1 =>
      match rows2 !! idx with
      | None =>
          (added,
           removed ++ [mkRowChange "removed" (KIdx idx) [] (Some r1) None],
           modified)
      | Some r2 =>
          match modified_entry all_columns (KIdx idx) r1 r2 with
          | Some rc => (added, removed, modified ++ [rc])
          | None => (added, removed, modified)
          end
      end
  end.

Definition _compare_ordered (headers1 : list string) (rows1 : list Row)
    (headers2 : list string) (rows2 : list Row)
  : list RowChange * list RowChange * list RowChange :=
  let all_columns := dict_fromkeys (headers1 ++ headers2) in
  let max_len := length rows1 `max` length rows2 in
  foldl (ordered_step all_columns rows1 rows2) ([], [], []) (seq 0 max_len).

(** [collections.Counter] over row tuples: a dict in insertion order, here an
    association list whose keys are distinct. *)
Abbreviation Counter := (list (list string * nat)).

Fixpoint counter_incr (t : list string) (c : Counter) : Counter :=
  match c with
  | [] => [(t, 1)]
  | (u, n) :: c' =>
      if decide (u = t) then (u, S n) :: c' else (u, n) :: counter_incr t c'
  end.

Definition counter_of (ts : list (list string)) : Counter :=
  foldl (λ c t, counter_incr t c) [] ts.

(** [c[t]], 0 for a missing element *)
Fixpoint counter_get (c : Counter) (t : list string) : nat :=
  match c with
  | [] => 0
  | (u, n) :: c' => if decide (u = t) then n else counter_get c' t
  end.

(** [c - d]: the elements of [c] whose count exceeds the one in [d], in the
    order of [c], with the difference of the counts.  (The second loop of
    [Counter.__sub__] adds the elements of [d] with a negative count; a
    [Counter] built by counting has none.) *)
Definition counter_sub (c d : Counter) : Counter :=
  omap (λ '(t, n), let m := counter_get d t in
                   if decide (m < n) then Some (t, n - m) else None) c.

(** [to_tuple] and the row rebuilt by [{h: v for h, v in zip(tuple_headers, t)}] *)
Definition to_tuple (tuple_headers : list string) (r : Row) : list string :=
  (λ h, row_get r h) <$> tuple_headers.

Definition row_of_tuple (tuple_headers : list string) (t : list string) : Row :=
  foldl (λ m hv, <[hv.1 := hv.2]> m) ∅ (zip tuple_headers t).

Definition compare_multiset (headers1 : list string) (rows1 : list Row)
    (headers2 : list string) (rows2 : list Row)
  : list RowChange * list RowChange * list RowChange :=
  let tuple_headers := dict_fromkeys (headers1 ++ headers2) in
  let c1 := counter_of (to_tuple tuple_headers <$> rows1) in
  let c2 := counter_of (to_tuple tuple_headers <$> rows2) in
  let added :=
    mjoin ((λ '(t, count),
             replicate count
               (mkRowChange "added" (KStr t) [] None
                  (Some (row_of_tuple tuple_headers t))))
           <$> counter_sub c2 c1) in
  let removed :=
    mjoin ((λ '(t, count),
             replicate count
               (mkRowChange "removed" (KStr t) []
                  (Some (row_of_tuple tuple_headers t)) None))
           <$> counter_sub c1 c2) in
  (added, removed, []).

(** [compare_csv_files] after the two [_read_csv] calls.  [keys] is the
    optional key-column list, [ordered] the positional flag; [raw] is the text
    of [_raw_text_diff] when [include_raw_diff] is set, [None] otherwise. *)
Definition compare_csv_files (headers1 : list string) (rows1 : list Row)
    (headers2 : list string) (rows2 : list Row)
    (keys : option (list string)) (ordered : bool) (raw : option string)
  : Error + DiffResult :=
  let '(added, removed, modified) :=
    if ordered then _compare_ordered headers1 rows1 headers2 rows2
    else match keys with
         | Some (k :: ks) =>
             _compare_unordered headers1 rows1 headers2 rows2 (k :: ks)
         | _ => compare_multiset headers1 rows1 headers2 rows2
         end in
  inr (mkDiffResult added removed modified raw).

(** How many rows of a table have the tuple [t]. *)
Definition occurrences (t : list string) (ts : list (list string)) : nat :=
  length (filter (λ u, u = t) ts).

(** How many entries of a result list carry the key [k]. *)
Definition count_key (k : Key) (l : list RowChange) : nat :=
  length (filter (λ rc, key rc = k) l).

(** The row that [_read_csv] keeps for a row of [csv.DictReader]:
    [{h: (row.get(h) if row.get(h) is not None else "") for h in headers}].
    [raw] is the reader's row; a column it has no value for ([row.get(h)] is
    [None]) is absent from [raw]. *)
Definition read_row (headers : list string) (raw : Row) : Row :=
  foldl (λ m h, <[h := default "" (raw !! h)]> m) ∅ headers.

(** The rows [_read_csv] returns for the reader's rows. *)
Definition read_rows (headers : list string) (raws : list Row) : list Row :=
  read_row headers <$> raws.

(** What one index contributes to each list of [_compare_ordered]: the three
    branches of the loop body, read per index. *)
Definition ordered_added (rows1 rows2 : list Row) (idx : nat) : option RowChange :=
  match rows1 !! idx with
  | None => Some (mkRowChange "added" (KIdx idx) [] None (rows2 !! idx))
  | Some _ => None
  end.

Definition ordered_removed (rows1 rows2 : list Row) (idx : nat) : option RowChange :=
  match rows1 !! idx, rows2 !! idx with
  | Some r1, None => Some (mkRowChange "removed" (KIdx idx) [] (Some r1) None)
  | _, _ => None
  end.

Definition ordered_modified (all_columns : list string) (rows1 rows2 : list Row)
    (idx : nat) : option RowChange :=
  match rows1 !! idx, rows2 !! idx with
  | Some r1, Some r2 => modified_entry all_columns (KIdx idx) r1 r2
  | _, _ => None
  end.

End Core.

(** ** Python string operations used by [change_tracker.py] (ASCII text) *)
Module PyStr.


(** [str.isspace] on one ASCII character: TAB..CR, FS..US and the space. *)
Definition isspace (c : ascii) : bool :=
  let n := nat_of_ascii c in
  ((9 <=? n) && (n <=? 13)) || ((28 <=? n) && (n <=? 31)) || (n =? 32).

Fixpoint lstrip (s : string) : string :=
  match s with
  | EmptyString => EmptyString
  | String c s' => if isspace c then lstrip s' else s
  end.

Fixpoint rstrip (s : string) : string :=
  match s with
  | EmptyString => EmptyString
  | String c s' =>
      match rstrip s' with
      | EmptyString => if isspace c then EmptyString else String c EmptyString
      | t => String c t
      end
  end.

(** [s.strip()] *)
Definition strip (s : string) : string := rstrip (lstrip s).

Fixpoint map_chars (f : ascii → ascii) (s : string) : string :=
  match s with
  | EmptyString => EmptyString
  | String c s' => String (f c) (map_chars f s')
  end.

Definition lower_char (c : ascii) : ascii :=
  let n := nat_of_ascii c in
  if (65 <=? n) && (n <=? 90) then ascii_of_nat (n + 32) else c.

Definition upper_char (c : ascii) : ascii :=
  let n := nat_of_ascii c in
  if (97 <=? n) && (n <=? 122) then ascii_of_nat (n - 32) else c.

(** [s.lower()] and [s.upper()] *)
Definition lower (s : string) : string := map_chars lower_char s.
Definition upper (s : string) : string := map_chars upper_char s.

(** [s.replace(old, new)] for a non-empty [old]: occurrences are found from
    the left and do not overlap.  [skip] counts the characters of a match
    still to be passed over. *)
Fixpoint replace_from (skip : nat) (old new s : string) : string :=
  match s with
  | EmptyString => EmptyString
  | String c s' =>
      match skip with
      | S k => replace_from k old new s'
      | O =>
          if String.prefix old s
          then (new +:+ replace_from (String.length old - 1) old new s')
          else String c (replace_from 0 old new s')
      end
  end.

Definition replace (old new s : string) : string := replace_from 0 old new s.

(** [s.split()]: the maximal runs of non-space characters.  [cur] is the word
    being read, if any. *)
Fixpoint split_from (cur : option string) (s : string) : list string :=
  match s with
  | EmptyString => match cur with Some w => [w] | None => [] end
  | String c s' =>
      if isspace c
      then match cur with
           | Some w => w :: split_from None s'
           | None => split_from None s'
           end
      else split_from (Some (default EmptyString cur +:+ String c EmptyString)) s'
  end.

Definition split (s : string) : list string := split_from None s.

(** [sep.join(l)] *)
Fixpoint join (sep : string) (l : list string) : string :=
  match l with
  | [] => EmptyString
  | [w] => w
  | w :: l' => w +:+ sep +:+ join sep l'
  end.

(** [c in s] for one character *)
Fixpoint contains_char (c : ascii) (s : string) : bool :=
  match s with
  | EmptyString => false
  | String d s' => if decide (d = c) then true else contains_char c s'
  end.

(** [s.split(sep)] for a one-character separator: the pieces between the
    separators, empty pieces kept.  [cur] is the piece being read. *)
Fixpoint split_on_from (sep : ascii) (cur : string) (s : string) : list string :=
  match s with
  | EmptyString => [cur]
  | String c s' =>
      if decide (c = sep) then cur :: split_on_from sep EmptyString s'
      else split_on_from sep (cur +:+ String c EmptyString) s'
  end.

Definition split_on (sep : ascii) (s : string) : list string :=
  split_on_from sep EmptyString s.

(** [s.strip()] on any text, held in UTF-8.  Besides the ASCII white space,
    Python trims U+0085 and U+00A0 (two bytes each: C2 85, C2 A0) and U+1680,
    U+2000 to U+200A, U+2028, U+2029, U+202F, U+205F and U+3000 (three bytes
    each: E1 9A 80, E2 80 80 to E2 80 8A, E2 80 A8, E2 80 A9, E2 80 AF,
    E2 81 9F, E3 80 80). *)
Definition wide_space2 (c1 c2 : ascii) : bool :=
  let n1 := nat_of_ascii c1 in
  let n2 := nat_of_ascii c2 in
  (n1 =? 194) && ((n2 =? 133) || (n2 =? 160)).

Definition wide_space3 (c1 c2 c3 : ascii) : bool :=
  let n1 := nat_of_ascii c1 in
  let n2 := nat_of_ascii c2 in
  let n3 := nat_of_ascii c3 in
  ((n1 =? 225) && (n2 =? 154) && (n3 =? 128))
  || ((n1 =? 226) && (n2 =? 128)
      && (((128 <=? n3) && (n3 <=? 138))
          || (n3 =? 168) || (n3 =? 169) || (n3 =? 175)))
  || ((n1 =? 226) && (n2 =? 129) && (n3 =? 159))
  || ((n1 =? 227) && (n2 =? 128) && (n3 =? 128)).

(** White-space characters taken off the front; [w2] and [w3] recognise the
    two-byte and three-byte ones. *)
Fixpoint lstrip_by (w2 : ascii → ascii → bool) (w3 : ascii → ascii → ascii → bool)
    (s : string) : string :=
  match s with
  | EmptyString => EmptyString
  | String c1 s1 =>
      if isspace c1 then lstrip_by w2 w3 s1
      else
        match s1 with
        | EmptyString => s
        | String c2 s2 =>
            if w2 c1 c2 then lstrip_by w2 w3 s2
            else
              match s2 with
              | EmptyString => s
              | String c3 s3 => if w3 c1 c2 c3 then lstrip_by w2 w3 s3 else s
              end
        end
  end.

Definition ulstrip (s : string) : string := lstrip_by wide_space2 wide_space3 s.

(** Off the end: the same on the reversed bytes, each character read
    backwards. *)
Definition urstrip (s : string) : string :=
  String.rev (lstrip_by (λ c1 c2, wide_space2 c2 c1)
                        (λ c1 c2 c3, wide_space3 c3 c2 c1) (String.rev s)).

Definition ustrip (s : string) : string := urstrip (ulstrip s).

(** [all(c.isspace() for c in s)] *)
Fixpoint all_space (s : string) : bool :=
  match s with
  | EmptyString => true
  | String c s' => isspace c && all_space s'
  end.

End PyStr.

(** ** [difflib.SequenceMatcher(None, a, b).ratio()]

    The standard-library matcher that [similarity_score] calls, with no junk
    predicate and [autojunk] left at its default.  Sequences are lists of
    characters, positions are [nat]. *)
Module Difflib.

Abbreviation Match := (nat * nat * nat)%type.

Section matcher.
Variables a b : list ascii.

(** [__chain_b]: [b2j] maps a character to its positions in [b], in
    increasing order; when [len(b) >= 200] the characters that occur more
    than [len(b) // 100 + 1] times are dropped from it. *)
Fixpoint positions_from (j : nat) (l : list ascii) (c : ascii) : list nat :=
  match l with
  | [] => []
  | x :: l' =>
      if decide (x = c) then j :: positions_from (S j) l' c
      else positions_from (S j) l' c
  end.

Definition popular (c : ascii) : bool :=
  bool_decide (200 ≤ length b)
  && bool_decide (length b / 100 + 1 < length (positions_from 0 b c)).

Definition b2j (c : ascii) : list nat :=
  if popular c then [] else positions_from 0 b c.

(** The element at a position; every use below is in range. *)
Definition at_ (l : list ascii) (i : nat) : ascii := nth i l "000"%char.

(** [for j in b2j.get(a[i], nothing)] of [find_longest_match], with its
    [continue] on [j < blo] and its [break] on [j >= bhi].  The state is
    [newj2len] and the best match so far. *)
Fixpoint scan_row (blo bhi i : nat) (j2len : gmap nat nat) (js : list nat)
    (newj2len : gmap nat nat) (best : Match) : gmap nat nat * Match :=
  match js with
  | [] => (newj2len, best)
  | j :: js' =>
      if decide (j < blo) then scan_row blo bhi i j2len js' newj2len best
      else if decide (bhi ≤ j) then (newj2len, best)
      else
        let k := match j with
                 | O => 0
                 | S j' => default 0 (j2len !! j')
                 end + 1 in
        let best' := if decide (best.2 < k) then (i + 1 - k, j + 1 - k, k)
                     else best in
        scan_row blo bhi i j2len js' (<[j := k]> newj2len) best'
  end.

(** The two [while] loops that extend the best match to the left and to
    the right.  Each iteration moves one position, so [besti - alo]
    (resp. [ahi - (besti + bestsize)]) iterations are all there can be. *)
Fixpoint extend_left (n alo blo : nat) (best : Match) : Match :=
  match n with
  | O => best
  | S n' =>
      let '(besti, bestj, bestsize) := best in
      if decide (alo < besti ∧ blo < bestj
                 ∧ at_ a (besti - 1) = at_ b (bestj - 1))
      then extend_left n' alo blo (besti - 1, bestj - 1, bestsize + 1)
      else best
  end.

Fixpoint extend_right (n ahi bhi : nat) (best : Match) : Match :=
  match n with
  | O => best
  | S n' =>
      let '(besti, bestj, bestsize) := best in
      if decide (besti + bestsize < ahi ∧ bestj + bestsize < bhi
                 ∧ at_ a (besti + bestsize) = at_ b (bestj + bestsize))
      then extend_right n' ahi bhi (besti, bestj, bestsize + 1)
      else best
  end.

(** [find_longest_match(alo, ahi, blo, bhi)].  With no junk predicate
    [bjunk] is empty, so the two loops that absorb junk never run. *)
Definition find_longest_match (alo ahi blo bhi : nat) : Match :=
  let '(_, best) :=
    foldl (λ '(j2len, best) i,
             scan_row blo bhi i j2len (b2j (at_ a i)) ∅ best)
          ((∅ : gmap nat nat), (alo, blo, 0)) (seq alo (ahi - alo)) in
  let best := extend_left (best.1.1 - alo) alo blo best in
  extend_right (ahi - (best.1.1 + best.2)) ahi bhi best.

(** The [while queue] loop of [get_matching_blocks].  [queue.pop()] takes
    the last pushed range, here the head of the list.  [fuel] bounds the
    number of iterations; [DifflibSpec.matching_blocks_total] shows that the
    bound given by [matching_blocks] is never reached. *)
Fixpoint blocks_loop (fuel : nat) (queue : list (nat * nat * nat * nat))
    (matching_blocks : list Match) : option (list Match) :=
  match queue with
  | [] => Some matching_blocks
  | (alo, ahi, blo, bhi) :: queue' =>
      match fuel with
      | O => None
      | S fuel' =>
          let '(i, j, k) := find_longest_match alo ahi blo bhi in
          if decide (k = 0) then blocks_loop fuel' queue' matching_blocks
          else
            let left := if decide (alo < i ∧ blo < j)
                        then [(alo, i, blo, j)] else [] in
            let right := if decide (i + k < ahi ∧ j + k < bhi)
                         then [(i + k, ahi, j + k, bhi)] else [] in
            blocks_loop fuel' (right ++ left ++ queue')
              (matching_blocks ++ [(i, j, k)])
      end
  end.

(** The blocks found, before [get_matching_blocks] sorts them, merges
    adjacent ones and appends the sentinel [(la, lb, 0)]; none of the three
    changes the sum of the sizes, which is all [ratio] reads. *)
Definition matching_blocks : option (list Match) :=
  blocks_loop (2 * length a + 1) [(0, length a, 0, length b)] [].

(** [sum(triple[-1] for triple in self.get_matching_blocks())] *)
Definition matches : nat :=
  match matching_blocks with
  | Some bl => sum_list_with snd bl
  | None => 0
  end.

End matcher.

(** A similarity score is the fraction [num / den].  [ratio] is
    [_calculate_ratio(matches, len(a) + len(b))]: [2.0 * matches / length],
    and [1.0] for two empty sequences.  Python holds it in a double; the model
    keeps the exact fraction. *)
Record Ratio := mkRatio { num : nat; den : nat }.

Definition ratio (a b : string) : Ratio :=
  let la := list_ascii_of_string a in
  let lb := list_ascii_of_string b in
  let length := length la + length lb in
  if decide (length = 0) then mkRatio 1 1
  else mkRatio (2 * matches la lb) length.

(** [r > p / q], the test [similarity > 0.8] (resp. [> 0.5]) on the exact
    fraction.  The double that Python computes for [2 * M / T] exceeds the
    double [0.8] (resp. [0.5]) exactly when the fraction exceeds 8/10 (resp.
    5/10), as long as [T] stays below [2 ^ 49]: a fraction above 8/10 is above
    it by [1 / (5 * T)] at least, and rounding is monotone. *)
Definition ratio_gt (r : Ratio) (p q : nat) : bool :=
  bool_decide (p * den r < q * num r).

(** Invariants of the matcher, used to show that its loops end and that no
    subtraction on positions goes below zero.  A match lies inside the ranges
    of [a] and [b] it was searched in; a run length recorded in a [j2len] at
    position [j] is at most a bound and reaches back no further than [blo];
    and what is left to search counts, for each pending range, twice its
    length in [a] plus one for the iteration that pops it. *)
Definition inside (alo ahi blo bhi : nat) (m : Match) : Prop :=
  alo ≤ m.1.1 ∧ m.1.1 + m.2 ≤ ahi ∧ blo ≤ m.1.2 ∧ m.1.2 + m.2 ≤ bhi.

Definition runs_below (bound blo : nat) (j2len : gmap nat nat) : Prop :=
  ∀ j k, j2len !! j = Some k → k ≤ bound ∧ k + blo ≤ j + 1.

Definition well_formed_range (range : nat * nat * nat * nat) : Prop :=
  range.1.1.1 ≤ range.1.1.2 ∧ range.1.2 ≤ range.2.

Definition pending_range (range : nat * nat * nat * nat) : nat :=
  2 * (range.1.1.2 - range.1.1.1) + 1.

Definition pending (queue : list (nat * nat * nat * nat)) : nat :=
  sum_list_with pending_range queue.

(** The lengths of a pending range in [a] and in [b]. *)
Definition span_a (range : nat * nat * nat * nat) : nat :=
  range.1.1.2 - range.1.1.1.

Definition span_b (range : nat * nat * nat * nat) : nat :=
  range.2 - range.1.2.

End Difflib.

(** ** [src/change_tracker.py] *)
Module ChangeTracker.
Import PyStr.

(** A cell of a DataFrame read by [pd.read_csv]: missing ([NaN]) or a value,
    held as the text [str(value)] gives. *)
Inductive Cell :=
| NaN
| Val (s : string).

#[global] Instance Cell_eq_dec : EqDecision Cell.
Proof. solve_decision. Defined.

(** A [pd.Series] row: column name to cell.  [row.get(f)] is [row !! f],
    [None] when the frame has no column [f]. *)
Abbreviation Series := (gmap string Cell).

(** [pd.isna(row.get(f))]: true of [None] and of [NaN]. *)
Definition isna (v : option Cell) : bool :=
  match v with
  | Some (Val _) => false
  | _ => true
  end.

(** [str(v)] of a cell *)
Definition py_str (v : Cell) : string :=
  match v with
  | NaN => "nan"
  | Val s => s
  end.

(** One entry of [self.changes[i]['changes']].  [similarity] holds the score
    that the source passes through [round(_, 2)]. *)
Record Change := mkChange {
  field : string;
  old_value : string;
  new_value : string;
  change_type : string;
  similarity : Difflib.Ratio
}.

(** One entry of [self.changes]: the labels are [old_record.get('Name', '')]
    and [old_record.get('Chi Name', '')]. *)
Record UserChange := mkUserChange {
  user : Cell;
  chinese_name : Cell;
  changes_of : list Change
}.

Record Statistics := mkStatistics {
  total_old_records : nat;
  total_new_records : nat;
  common_users : nat;
  new_joiners : nat;
  resignees : nat;
  users_with_changes : nat;
  total_field_changes : nat
}.

(** The fields of a [ChangeTracker] that the analysis reads and writes. *)
Record Tracker := mkTracker {
  old_data : list Series;
  new_data : list Series;
  changes : list UserChange;
  statistics : Statistics
}.


(** [normalize_name]; its argument is already a [str], so [pd.isna(name)] is
    false. *)
Definition normalize_name (name : string) : string :=
  if decide (name = "") then ""
  else
    let name := join " " (split name) in
    let name := upper name in
    let name := replace "-" " " (replace "." "" (replace "," "" name)) in
    strip name.

(** The two components of [create_user_key]. *)
Definition eng_name (row : Series) : string :=
  normalize_name (py_str (default (Val "") (row !! "Name"))).

Definition chi_name (row : Series) : string :=
  if isna (row !! "Chi Name") then ""
  else ustrip (py_str (default (Val "") (row !! "Chi Name"))).

Definition create_user_key (row : Series) : string :=
  if decide (chi_name row ≠ "") then eng_name row +:+ "|" +:+ chi_name row
  else eng_name row.

(** The two loops of [find_common_users] that fill [old_users] and
    [new_users]: a row with an empty key is skipped, a later row overwrites
    an earlier one with the same key. *)
Definition users_of (data : list Series) : gmap string Series :=
  foldl (λ users row,
           let key := create_user_key row in
           if decide (key = "") then users else <[key := row]> users)
        ∅ data.

(** [find_common_users]: the dict over [set(old_users) & set(new_users)] and
    the three counters. *)
Definition find_common_users (self : Tracker)
  : gmap string (Series * Series) * Tracker :=
  let old_users := users_of (old_data self) in
  let new_users := users_of (new_data self) in
  let common := map_zip old_users new_users in
  let st := statistics self in
  (common,
   mkTracker (old_data self) (new_data self) (changes self)
     (mkStatistics (total_old_records st) (total_new_records st)
        (size common)
        (size (dom new_users ∖ dom old_users))
        (size (dom old_users ∖ dom new_users))
        (users_with_changes st) (total_field_changes st))).

(** [similarity_score]; both arguments are strings at its only call. *)
Definition similarity_score (str1 str2 : string) : Difflib.Ratio :=
  Difflib.ratio str1 str2.

(** The value normalisation of [detect_field_change]:
    [.lower().replace('-', ' ').replace(',', ' ').replace('  ', ' ').strip()] *)
Definition normalized (s : string) : string :=
  strip (replace "  " " " (replace "," " " (replace "-" " " (lower s)))).

(** ['' if pd.isna(v) else str(v).strip()] *)
Definition value_str (v : option Cell) : string :=
  match v with
  | Some (Val s) => strip s
  | _ => ""
  end.

Definition classify (old_str new_str : string) (sim : Difflib.Ratio) : string :=
  if decide (old_str = "" ∧ new_str ≠ "") then "Added"
  else if decide (old_str ≠ "" ∧ new_str = "") then "Removed"
  else if Difflib.ratio_gt sim 8 10 then "Minor Change (Possible Typo)"
  else if Difflib.ratio_gt sim 5 10 then "Moderate Change"
  else "Major Change".

(** [detect_field_change]: [None] when the normalised values agree. *)
Definition detect_field_change (old_v new_v : option Cell) (field_name : string)
  : option Change :=
  let old_str := value_str old_v in
  let new_str := value_str new_v in
  let old_str_normalized := normalized old_str in
  let new_str_normalized := normalized new_str in
  if decide (old_str_normalized = new_str_normalized) then None
  else
    let sim := similarity_score old_str_normalized new_str_normalized in
    Some (mkChange field_name old_str new_str (classify old_str new_str sim) sim).

Definition fields_to_compare : list string :=
  ["Name"; "Title"; "Phone"; "Fax"; "Location"].

(** The inner loop of [compare_users] for one matched pair. *)
Definition user_changes (old_record new_record : Series) : list Change :=
  omap (λ f, detect_field_change (old_record !! f) (new_record !! f) f)
       fields_to_compare.

(** One iteration of the outer loop, on [users_with_changes], [self.changes]
    and [statistics['total_field_changes']]. *)
Definition compare_step (acc : gset string * list UserChange * nat)
    (entry : string * (Series * Series)) : gset string * list UserChange * nat :=
  let '(with_changes, chs, total) := acc in
  let '(user_key, (old_record, new_record)) := entry in
  let ucs := user_changes old_record new_record in
  match ucs with
  | [] => (with_changes, chs, total)
  | _ =>
      ({[user_key]} ∪ with_changes,
       chs ++ [mkUserChange (default (Val "") (old_record !! "Name"))
                            (default (Val "") (old_record !! "Chi Name"))
                            ucs],
       total + length ucs)
  end.

(** [compare_users] *)
Definition compare_users (common : gmap string (Series * Series)) (self : Tracker)
  : Tracker :=
  let st := statistics self in
  let '(with_changes, chs, total) :=
    foldl compare_step (∅, changes self, total_field_changes st)
          (map_to_list common) in
  mkTracker (old_data self) (new_data self) chs
    (mkStatistics (total_old_records st) (total_new_records st)
       (common_users st) (new_joiners st) (resignees st)
       (size with_changes) total).




(** What one matched pair adds to [self.changes] in [compare_users]: the
    body of the outer loop, read per pair. *)
Definition user_entry (old_record new_record : Series) : option UserChange :=
  match user_changes old_record new_record with
  | [] => None
  | ucs => Some (mkUserChange (default (Val "") (old_record !! "Name"))
                              (default (Val "") (old_record !! "Chi Name"))
                              ucs)
  end.





End ChangeTracker.

(** ** [src/csv_diff/__main__.py] *)
Module Cli.
Import PyStr Core.

(** [tuple(k.strip() for k in ns.key.split(",")) if ns.key else None]:
    [ns_key] is the value of [--key], [None] when the option is not given. *)
Definition parse_keys (ns_key : option string) : option (list string) :=
  match ns_key with
  | None => None
  | Some s =>
      if decide (s = "") then None else Some (strip <$> split_on "," s)
  end.



End Cli.

(** ** [src/csv_diff/formatting_fixed.py] *)
Module Formatting.
Import PyStr Core.

Section markdown.
(** [_format_row_change_markdown], which renders one entry through
    [json.dumps]; the section layout below does not depend on its text. *)
Variable format_row : RowChange → nat → nat → string.

(** The loop of [section] in [format_markdown]: the lines appended for the
    entries from position [idx] on, and the final [count].  [max_rows] is a
    [nat]; a negative [--max-print-rows] stops the loop at once, as 0 does. *)
Fixpoint section_loop (title : string) (max_rows : nat) (count idx : nat)
    (changes : list RowChange) : list string * nat :=
  match changes with
  | [] => ([], count)
  | ch :: changes' =>
      if decide (max_rows ≤ count)
      then (["- ... and more (" +:+ lower title +:+ ")"], count)
      else
        let '(lines, count') :=
          section_loop title max_rows (count + 1) (idx + 1) changes' in
        (format_row ch max_rows idx :: lines, count')
  end.

(** [section(title, changes)]: the lines it appends. *)
Definition section (title : string) (max_rows : nat) (changes : list RowChange)
  : list string :=
  let '(lines, count) := section_loop title max_rows 0 0 changes in
  ("### " +:+ title) :: lines ++ (if decide (count = 0) then ["- None"] else []).

End markdown.

End Formatting.

(** ** [src/comprehensive_check.py]: the re-check of one matched pair *)
Module Check.
Import PyStr ChangeTracker.

(** [str(record.get(field, '')).strip()]: unlike [value_str], a [NaN] cell
    is read as the text [nan]. *)
Definition check_value (v : option Cell) : string :=
  strip (py_str (default (Val "") v)).

(** The body of the loop over [fields_to_check] for one field: [None] when
    the normalised values agree, otherwise the missed change, classified as
    in [detect_field_change]. *)
Definition missed_field_change (old_record new_record : Series) (field : string)
  : option Change :=
  let old_val := check_value (old_record !! field) in
  let new_val := check_value (new_record !! field) in
  let old_normalized := normalized old_val in
  let new_normalized := normalized new_val in
  if decide (old_normalized = new_normalized) then None
  else
    let sim := similarity_score old_normalized new_normalized in
    Some (mkChange field old_val new_val (classify old_val new_val sim) sim).

Definition fields_to_check : list string :=
  ["Name"; "Title"; "Phone"; "Fax"; "Location"].

(** [user_missed_changes] of one pair *)
Definition user_missed_changes (old_record new_record : Series) : list Change :=
  omap (missed_field_change old_record new_record) fields_to_check.

End Check.

(** ** Sample tables and records used by the worked instances below *)
Module Samples.
Import Core.

Definition row3 (id name phone : string) : Row :=
  <["id" := id]> (<["name" := name]> (<["phone" := phone]> ∅)).

Definition roster_headers : list string := ["id"; "name"; "phone"].

Definition roster_old : list Row :=
  [row3 "1" "Alice" "123"; row3 "2" "Bob" "555"; row3 "4" "Dan" "1"].

Definition roster_new : list Row :=
  [row3 "1" "Alice" "124"; row3 "3" "Carol" "777"; row3 "4" "Dan" "1"].

Definition row2 (name val : string) : Row :=
  <["name" := name]> (<["val" := val]> ∅).

Definition person (name chi title : string) : ChangeTracker.Series :=
  <["Name" := ChangeTracker.Val name]>
    (<["Chi Name" := ChangeTracker.Val chi]>
       (<["Title" := ChangeTracker.Val title]> ∅)).

Definition person_email (name title email : string) : ChangeTracker.Series :=
  <["Name" := ChangeTracker.Val name]>
    (<["Title" := ChangeTracker.Val title]>
       (<["Email" := ChangeTracker.Val email]> ∅)).

Definition fresh_tracker : ChangeTracker.Tracker :=
  ChangeTracker.mkTracker [] [] []
    (ChangeTracker.mkStatistics 0 0 0 0 0 0 0).


End Samples.

(** * The string operations on sample inputs *)
Module PyStrSpec.
Import PyStr.

Example strip_sample : strip "  a b  " = "a b".
Proof. reflexivity. Qed.

Example lower_upper_sample :
  lower "O'Brien, John-X" = "o'brien, john-x" ∧ upper "o'brien." = "O'BRIEN.".
Proof. split; reflexivity. Qed.

(** [replace] takes occurrences from the left without overlap: a run of
    three spaces loses one, a run of four loses two. *)
Example replace_sample :
  replace "  " " " "a   b  c    d" = "a  b c  d"
  ∧ replace "," "" "a,b,,c" = "abc"
  ∧ replace "-" " " "a-b" = "a b".
Proof. split_and!; reflexivity. Qed.

Example split_join_sample :
  split "  John   Q  Public " = ["John"; "Q"; "Public"]
  ∧ join " " (split "  John   Q  Public ") = "John Q Public".
Proof. split; reflexivity. Qed.

End PyStrSpec.

(** * Properties of the comparison core *)
Module CoreSpec.
Import Core.

Implicit Types (r : Row) (k t : list string) (rows : list Row).

(** *** The key map *)

Lemma key_map_snoc keys rows r :
  key_map keys (rows ++ [r]) = <[_make_key r keys := r]> (key_map keys rows).
Proof. unfold key_map. by rewrite foldl_app. Qed.

(** A key is in the map exactly when some row carries it. *)
Lemma key_map_dom keys rows k :
  k ∈ dom (key_map keys rows) ↔ ∃ r, r ∈ rows ∧ _make_key r keys = k.
Proof.
  induction rows as [|r rows IH] using rev_ind.
  - unfold key_map; simpl. rewrite dom_empty_L. split; [set_solver|].
    intros (r & Hr & _). by apply elem_of_nil in Hr.
  - rewrite key_map_snoc, dom_insert_L, elem_of_union, elem_of_singleton, IH.
    split.
    + intros [->|(r' & Hr' & Hk)].
      * exists r. split; [|done]. apply elem_of_app. right. by apply list_elem_of_singleton.
      * exists r'. split; [|done]. apply elem_of_app. by left.
    + intros (r' & Hr' & Hk). apply elem_of_app in Hr' as [Hr'|Hr'].
      * right. by exists r'.
      * apply list_elem_of_singleton in Hr' as ->. by left.
Qed.

(** The row kept for a key is the last one that carries it. *)
Lemma key_map_lookup keys rows k :
  key_map keys rows !! k = last (filter (λ r, _make_key r keys = k) rows).
Proof.
  induction rows as [|r rows IH] using rev_ind; [done|].
  rewrite key_map_snoc, filter_app, filter_cons, filter_nil.
  case_decide as Hk.
  - subst k. by rewrite lookup_insert_eq, last_snoc.
  - by rewrite lookup_insert_ne, app_nil_r.
Qed.

(** *** Cell changes of a matched pair *)

Lemma cell_changes_same cols r : cell_changes cols r r = [].
Proof.
  unfold cell_changes. induction cols as [|c cols IH]; [done|].
  simpl. unfold cell_change at 1. by rewrite decide_True.
Qed.

Lemma elem_of_cell_changes cols r1 r2 c :
  c ∈ cell_changes cols r1 r2 ↔
  ∃ col, col ∈ cols ∧ row_get r1 col ≠ row_get r2 col
         ∧ c = mkCellChange col (Some (row_get r1 col)) (Some (row_get r2 col)).
Proof.
  unfold cell_changes. rewrite list_elem_of_omap. unfold cell_change.
  split.
  - intros (col & Hin & Hc). exists col. case_decide; [done|].
    by injection Hc as <-.
  - intros (col & Hin & Hne & ->). exists col. by rewrite decide_False.
Qed.

Lemma modified_entry_same cols key r : modified_entry cols key r r = None.
Proof. unfold modified_entry. by rewrite cell_changes_same. Qed.

Lemma modified_entry_key cols key r1 r2 rc :
  modified_entry cols key r1 r2 = Some rc → Core.key rc = key.
Proof.
  unfold modified_entry. destruct (cell_changes cols r1 r2); [done|].
  by intros [= <-].
Qed.

(** *** Selecting the entries of one key *)

Lemma omap_all_None {A B} (f : A → option B) (l : list A) :
  (∀ x, x ∈ l → f x = None) → omap f l = [].
Proof.
  induction l as [|x l IH]; [done|]. intros H. simpl.
  rewrite (H x) by set_solver. apply IH. intros y Hy. apply H. set_solver.
Qed.

Lemma filter_key_omap (F : list string → option RowChange) (l : list (list string)) k :
  NoDup l →
  (∀ x rc, F x = Some rc → key rc = KStr x) →
  filter (λ rc, key rc = KStr k) (omap F l)
  = if decide (k ∈ l) then option_list (F k) else [].
Proof.
  intros Hnd HF. induction Hnd as [|x l Hx Hnd IH].
  - destruct (decide (k ∈ [])) as [H|H]; [by apply elem_of_nil in H|done].
  - assert (filter (λ rc, key rc = KStr k) (omap F (x :: l))
            = (if decide (x = k) then option_list (F x) else [])
              ++ filter (λ rc, key rc = KStr k) (omap F l)) as ->.
    { simpl. destruct (F x) as [rc|] eqn:HFx.
      - rewrite filter_cons. rewrite (HF _ _ HFx).
        destruct (decide (x = k)) as [->|Hne].
        + by rewrite decide_True.
        + rewrite decide_False; [done|congruence].
      - by destruct (decide (x = k)). }
    rewrite IH. destruct (decide (x = k)) as [->|Hne].
    + rewrite (decide_True (P := k ∈ k :: l)) by apply list_elem_of_here.
      rewrite (decide_False (P := k ∈ l)) by done. by rewrite app_nil_r.
    + destruct (decide (k ∈ l)) as [Hin|Hnin].
      * by rewrite (decide_True (P := k ∈ x :: l)) by by apply list_elem_of_further.
      * rewrite (decide_False (P := k ∈ x :: l)); [done|].
        intros [->|?]%elem_of_cons; done.
Qed.

Lemma filter_key_fmap (f : list string → RowChange) (l : list (list string)) k :
  NoDup l →
  (∀ x, key (f x) = KStr x) →
  filter (λ rc, key rc = KStr k) (f <$> l)
  = if decide (k ∈ l) then [f k] else [].
Proof.
  intros Hnd Hf.
  rewrite list_fmap_alt. rewrite filter_key_omap; [done..|].
  by intros x rc [= <-].
Qed.

(** *** The unioned column list *)

Lemma elem_of_fromkeys_from seen l x :
  x ∈ fromkeys_from seen l ↔ x ∈ l ∧ x ∉ seen.
Proof.
  revert seen. induction l as [|y l IH]; intros seen; simpl.
  - split; [by intros ?%elem_of_nil|by intros [?%elem_of_nil _]].
  - case_decide as Hy.
    + rewrite IH, elem_of_cons. split; [tauto|].
      intros [[->|?] ?]; [done|tauto].
    + rewrite !elem_of_cons, IH, elem_of_cons. split.
      * intros [->|[? ?]]; [tauto|]. split; [tauto|]. intros ?; tauto.
      * intros [[->|?] ?]; [tauto|].
        destruct (decide (x = y)); [tauto|]. right. split; [done|]. tauto.
Qed.

Lemma elem_of_dict_fromkeys l x : x ∈ dict_fromkeys l ↔ x ∈ l.
Proof.
  unfold dict_fromkeys. rewrite elem_of_fromkeys_from.
  split; [tauto|]. intros ?. split; [done|]. apply not_elem_of_nil.
Qed.

(** *** Membership in the three key sets of [_compare_unordered] *)

Lemma elem_of_difference_keys (m1 m2 : gmap (list string) Row) k :
  k ∈ elements (dom m1 ∖ dom m2) ↔ is_Some (m1 !! k) ∧ m2 !! k = None.
Proof.
  by rewrite elem_of_elements, elem_of_difference, elem_of_dom, not_elem_of_dom.
Qed.

Lemma elem_of_intersection_keys (m1 m2 : gmap (list string) Row) k :
  k ∈ elements (dom m1 ∩ dom m2) ↔ is_Some (m1 !! k) ∧ is_Some (m2 !! k).
Proof. by rewrite elem_of_elements, elem_of_intersection, !elem_of_dom. Qed.

(** Case analysis on the three membership tests for a key whose lookups
    [H1], [H2] in the two maps are known; the impossible cases are closed. *)
Ltac key_cases H1 H2 :=
  repeat match goal with
  | |- context [decide (?k ∈ elements ?S)] =>
      let H := fresh "Hk" in
      destruct (decide (k ∈ elements S)) as [H|H];
      [ first [ apply elem_of_difference_keys in H
              | apply elem_of_intersection_keys in H ]
      | first [ rewrite elem_of_difference_keys in H
              | rewrite elem_of_intersection_keys in H ] ];
      rewrite ?H1, ?H2 in H;
      try (exfalso;
           first [ by destruct H as [[? ?] ?]
                 | by destruct H as [? [? ?]]
                 | by destruct H as [? ?]
                 | by apply H; eauto ])
  end.

(** The rows that carry a key, and the last of them. *)
Lemma last_filter_is_Some {A} (P : A → Prop) `{∀ x, Decision (P x)} (l : list A) :
  is_Some (last (filter P l)) ↔ ∃ x, x ∈ l ∧ P x.
Proof.
  split.
  - intros [y Hy]. apply last_Some_elem_of in Hy.
    apply list_elem_of_filter in Hy as [? ?]. by exists y.
  - intros (x & Hx & HP).
    destruct (last (filter P l)) as [y|] eqn:Hlast; [by eexists|].
    apply last_None in Hlast.
    assert (x ∈ filter P l) as Hin by by apply list_elem_of_filter.
    rewrite Hlast in Hin. by apply elem_of_nil in Hin.
Qed.

Lemma last_filter_Some {A} (P : A → Prop) `{∀ x, Decision (P x)} (l : list A) y :
  last (filter P l) = Some y → y ∈ l ∧ P y.
Proof.
  intros Hy. apply last_Some_elem_of in Hy.
  apply list_elem_of_filter in Hy as [? ?]. done.
Qed.

Lemma last_filter_None {A} (P : A → Prop) `{∀ x, Decision (P x)} (l : list A) :
  last (filter P l) = None ↔ ∀ x, x ∈ l → ¬ P x.
Proof.
  rewrite eq_None_not_Some, last_filter_is_Some. split.
  - intros Hno x Hx HP. apply Hno. by exists x.
  - intros Hall (x & Hx & HP). by apply (Hall x).
Qed.

(** The entries of one key, read off the two tables: what decides is the
    last row of each table that carries the key, if there is one. *)
Lemma compare_unordered_on_key headers1 rows1 headers2 rows2 keys k :
  let all_columns := dict_fromkeys (headers1 ++ headers2) in
  let with_key := filter (λ r, _make_key r keys = k) in
  let on_key := filter (λ rc, key rc = KStr k) in
  let '(added, removed, modified) :=
    _compare_unordered headers1 rows1 headers2 rows2 keys in
  match last (with_key rows1), last (with_key rows2) with
  | Some r1, None =>
      on_key removed = [mkRowChange "removed" (KStr k) [] (Some r1) None]
      ∧ on_key added = [] ∧ on_key modified = []
  | None, Some r2 =>
      on_key added = [mkRowChange "added" (KStr k) [] None (Some r2)]
      ∧ on_key removed = [] ∧ on_key modified = []
  | Some r1, Some r2 =>
      on_key added = [] ∧ on_key removed = []
      ∧ on_key modified =
          match cell_changes all_columns r1 r2 with
          | [] => []
          | ch => [mkRowChange "modified" (KStr k) ch (Some r1) (Some r2)]
          end
  | None, None => on_key added = [] ∧ on_key removed = [] ∧ on_key modified = []
  end.
Proof.
  unfold _compare_unordered. simpl. rewrite <- !key_map_lookup.
  rewrite !filter_key_fmap by (apply NoDup_elements || done).
  rewrite filter_key_omap; [|apply NoDup_elements|].
  2:{ intros x rc Hrc.
      destruct (key_map keys rows1 !! x) as [r1|]; [|done].
      destruct (key_map keys rows2 !! x) as [r2|]; [|done].
      simpl in Hrc. by apply modified_entry_key in Hrc. }
  destruct (key_map keys rows1 !! k) as [r1|] eqn:H1;
    destruct (key_map keys rows2 !! k) as [r2|] eqn:H2;
    key_cases H1 H2; try done.
  simpl. split_and!; [done|done|].
  unfold modified_entry. by destruct (cell_changes _ r1 r2).
Qed.

(** C6: keyed matching, read off the rows of the two tables.  A key is
    present on a side when some row of that side carries it, and the rows
    that share a key collapse to the last of them.  A key on one side only
    has exactly one entry, in [removed] (old side) or in [added] (new side),
    carrying that last row, and none in [modified]; a key on both sides has
    no entry in [added] or [removed] and has, in [modified], exactly one
    entry listing every differing column of the unioned headers when there
    is one, and no entry when there is none; a key on neither side has no
    entry at all. *)
Theorem keyed_partition headers1 rows1 headers2 rows2 keys k :
  let all_columns := dict_fromkeys (headers1 ++ headers2) in
  let with_key := filter (λ r, _make_key r keys = k) in
  let on_key := filter (λ rc, key rc = KStr k) in
  let '(added, removed, modified) :=
    _compare_unordered headers1 rows1 headers2 rows2 keys in
  (is_Some (last (with_key rows1)) ↔ ∃ r, r ∈ rows1 ∧ _make_key r keys = k)
  ∧ (is_Some (last (with_key rows2)) ↔ ∃ r, r ∈ rows2 ∧ _make_key r keys = k)
  ∧ match last (with_key rows1), last (with_key rows2) with
    | Some r1, None =>
        on_key removed = [mkRowChange "removed" (KStr k) [] (Some r1) None]
        ∧ on_key added = [] ∧ on_key modified = []
    | None, Some r2 =>
        on_key added = [mkRowChange "added" (KStr k) [] None (Some r2)]
        ∧ on_key removed = [] ∧ on_key modified = []
    | Some r1, Some r2 =>
        on_key added = [] ∧ on_key removed = []
        ∧ on_key modified =
            match cell_changes all_columns r1 r2 with
            | [] => []
            | ch => [mkRowChange "modified" (KStr k) ch (Some r1) (Some r2)]
            end
        ∧ ∀ c, c ∈ cell_changes all_columns r1 r2 ↔
               ∃ col, (col ∈ headers1 ∨ col ∈ headers2)
                      ∧ row_get r1 col ≠ row_get r2 col
                      ∧ c = mkCellChange col (Some (row_get r1 col))
                                         (Some (row_get r2 col))
    | None, None =>
        on_key added = [] ∧ on_key removed = [] ∧ on_key modified = []
    end.
Proof.
  intros all_columns with_key on_key.
  pose proof (compare_unordered_on_key headers1 rows1 headers2 rows2 keys k)
    as Hk.
  cbv zeta in Hk. fold all_columns with_key on_key in Hk.
  destruct (_compare_unordered headers1 rows1 headers2 rows2 keys)
    as [[added removed] modified].
  split; [apply last_filter_is_Some|]. split; [apply last_filter_is_Some|].
  destruct (last (with_key rows1)) as [r1|];
    destruct (last (with_key rows2)) as [r2|]; try done.
  destruct Hk as (Ha & Hr & Hm). split_and!; [done..|].
  intros c. subst all_columns. rewrite elem_of_cell_changes.
  by setoid_rewrite elem_of_dict_fromkeys; setoid_rewrite elem_of_app.
Qed.

(** *** Counters *)

Lemma counter_of_snoc ts t :
  counter_of (ts ++ [t]) = counter_incr t (counter_of ts).
Proof. unfold counter_of. by rewrite foldl_app. Qed.

Lemma counter_get_incr t (c : Counter) u :
  counter_get (counter_incr t c) u
  = if decide (u = t) then S (counter_get c u) else counter_get c u.
Proof.
  induction c as [|[v n] c IH]; simpl.
  - repeat case_decide; congruence.
  - destruct (decide (v = t)) as [->|Hvt]; simpl.
    + repeat case_decide; congruence.
    + rewrite IH. repeat case_decide; congruence.
Qed.

Lemma occurrences_app t ts1 ts2 :
  occurrences t (ts1 ++ ts2) = occurrences t ts1 + occurrences t ts2.
Proof. unfold occurrences. by rewrite filter_app, length_app. Qed.

Lemma occurrences_cons t u ts :
  occurrences t (u :: ts)
  = (if decide (u = t) then 1 else 0) + occurrences t ts.
Proof. unfold occurrences. rewrite filter_cons. by case_decide. Qed.

(** A counter holds, for every tuple, the number of rows that have it. *)
Lemma counter_get_of ts t : counter_get (counter_of ts) t = occurrences t ts.
Proof.
  induction ts as [|u ts IH] using rev_ind; [done|].
  rewrite counter_of_snoc, counter_get_incr, occurrences_app, IH.
  rewrite occurrences_cons. change (occurrences t []) with 0.
  repeat case_decide; try congruence; lia.
Qed.

Lemma counter_incr_keys t (c : Counter) :
  (counter_incr t c).*1 = if decide (t ∈ c.*1) then c.*1 else c.*1 ++ [t].
Proof.
  induction c as [|[v n] c IH]; csimpl.
  - destruct (decide (t ∈ [])) as [H|H]; [by apply elem_of_nil in H|done].
  - destruct (decide (v = t)) as [->|Hvt]; csimpl.
    + by rewrite decide_True by apply list_elem_of_here.
    + rewrite IH. destruct (decide (t ∈ c.*1)) as [Hin|Hnin].
      * by rewrite decide_True by by apply list_elem_of_further.
      * rewrite decide_False; [done|].
        intros [->|?]%elem_of_cons; done.
Qed.

Lemma counter_of_NoDup ts : NoDup (counter_of ts).*1.
Proof.
  induction ts as [|u ts IH] using rev_ind; [constructor|].
  rewrite counter_of_snoc, counter_incr_keys. case_decide; [done|].
  apply NoDup_app. split_and!; [done| |apply NoDup_singleton].
  intros x Hx ->%list_elem_of_singleton. done.
Qed.

Lemma counter_get_absent (c : Counter) t : t ∉ c.*1 → counter_get c t = 0.
Proof.
  induction c as [|[v n] c IH]; [done|]. simpl. intros Hnin.
  rewrite decide_False.
  - apply IH. intros ?. apply Hnin. by apply list_elem_of_further.
  - intros ->. apply Hnin. apply list_elem_of_here.
Qed.

Lemma counter_get_elem (c : Counter) t n :
  NoDup c.*1 → (t, n) ∈ c → counter_get c t = n.
Proof.
  induction c as [|[v m] c IH]; simpl.
  - by intros _ ?%elem_of_nil.
  - intros [Hv Hnd]%NoDup_cons [[= -> ->]|Hin]%elem_of_cons.
    + by rewrite decide_True.
    + rewrite decide_False; [by apply IH|].
      intros ->. apply Hv. apply list_elem_of_fmap. by exists (t, n).
Qed.

Lemma counter_sub_keys (c d : Counter) t :
  t ∈ (counter_sub c d).*1 → t ∈ c.*1.
Proof.
  unfold counter_sub. rewrite !list_elem_of_fmap.
  intros ([u n] & -> & ([v m] & Hin & Hsome)%list_elem_of_omap).
  exists (v, m). split; [|done]. simpl in *. by case_decide; simplify_eq.
Qed.

Lemma counter_sub_NoDup (c d : Counter) :
  NoDup c.*1 → NoDup (counter_sub c d).*1.
Proof.
  induction c as [|[v m] c IH]; [done|].
  intros [Hv Hnd]%NoDup_cons. unfold counter_sub. simpl.
  case_decide; simpl; [|by apply IH].
  apply NoDup_cons. split; [|by apply IH].
  intros Hin. apply Hv. by apply counter_sub_keys in Hin.
Qed.

Lemma counter_get_sub (c d : Counter) t :
  NoDup c.*1 →
  counter_get (counter_sub c d) t = counter_get c t - counter_get d t.
Proof.
  induction c as [|[v m] c IH]; [done|].
  intros [Hv Hnd]%NoDup_cons. unfold counter_sub. simpl.
  fold (counter_sub c d).
  destruct (decide (v = t)) as [->|Hvt].
  - case_decide; simpl.
    + by rewrite decide_True.
    + rewrite counter_get_absent; [lia|].
      intros Hin. apply Hv. by apply counter_sub_keys in Hin.
  - case_decide; simpl; [rewrite decide_False by done|]; by apply IH.
Qed.

Lemma counter_sub_positive (c d : Counter) t n :
  (t, n) ∈ counter_sub c d → 0 < n.
Proof.
  unfold counter_sub. intros ([v m] & Hin & Hsome)%list_elem_of_omap.
  simpl in Hsome. case_decide; simplify_eq. lia.
Qed.

Lemma counter_sub_same (c : Counter) : NoDup c.*1 → counter_sub c c = [].
Proof.
  intros Hnd. apply omap_all_None. intros [t n] Hin.
  rewrite (counter_get_elem c t n) by done.
  rewrite decide_False; [done|lia].
Qed.

(** A counter with distinct keys and positive counts that counts one tuple
    once and nothing else is that single item. *)
Lemma counter_single (c : Counter) t :
  NoDup c.*1 →
  (∀ u n, (u, n) ∈ c → 0 < n) →
  (∀ u, counter_get c u = if decide (u = t) then 1 else 0) →
  c = [(t, 1)].
Proof.
  intros Hnd Hpos Hget. destruct c as [|[u n] c].
  - specialize (Hget t). rewrite decide_True in Hget by done. done.
  - pose proof (Hget u) as Hu. simpl in Hu. rewrite decide_True in Hu by done.
    pose proof (Hpos u n (list_elem_of_here _ _)) as Hn.
    destruct (decide (u = t)) as [->|Hne]; [|lia]. subst n.
    destruct c as [|[v m] c]; [done|]. exfalso.
    apply NoDup_cons in Hnd as [Ht Hnd].
    assert (v ≠ t) as Hvt.
    { intros ->. apply Ht. simpl. apply list_elem_of_here. }
    pose proof (Hget v) as Hv. simpl in Hv.
    rewrite decide_False in Hv by done. rewrite decide_True in Hv by done.
    rewrite decide_False in Hv by done.
    assert (0 < m); [|lia].
    apply (Hpos v m). apply list_elem_of_further, list_elem_of_here.
Qed.

(** The entries that a counter expands to carry each key as often as the
    counter says. *)
Lemma count_key_expand (mk : list string → RowChange) (c : Counter) t :
  (∀ u, key (mk u) = KStr u) →
  NoDup c.*1 →
  count_key (KStr t) (mjoin ((λ '(u, n), replicate n (mk u)) <$> c))
  = counter_get c t.
Proof.
  intros Hmk. unfold count_key.
  induction c as [|[u n] c IH]; [done|].
  intros [Hu Hnd]%NoDup_cons. csimpl.
  rewrite filter_app, length_app, IH by done.
  assert (length (filter (λ rc, key rc = KStr t) (replicate n (mk u)))
          = if decide (u = t) then n else 0) as ->.
  { induction n as [|n IHn]; simpl.
    - by case_decide.
    - rewrite filter_cons, Hmk. destruct (decide (u = t)) as [->|Hne].
      + rewrite decide_True by done. simpl. by rewrite IHn.
      + rewrite decide_False by congruence. by rewrite IHn. }
  destruct (decide (u = t)) as [->|Hne]; [|done].
  rewrite counter_get_absent by done. lia.
Qed.

(** *** The three modes on identical inputs *)

Lemma ordered_same cols rows (l : list nat) acc :
  (∀ i, i ∈ l → i < length rows) →
  foldl (ordered_step cols rows rows) acc l = acc.
Proof.
  revert acc. induction l as [|i l IH]; intros acc Hl; [done|].
  simpl. rewrite IH.
  - destruct acc as [[a rm] m]. unfold ordered_step.
    destruct (lookup_lt_is_Some_2 rows i) as [r Hr].
    { apply Hl, list_elem_of_here. }
    by rewrite Hr, modified_entry_same.
  - intros j Hj. by apply Hl, list_elem_of_further.
Qed.

Lemma compare_ordered_same headers rows :
  _compare_ordered headers rows headers rows = ([], [], []).
Proof.
  unfold _compare_ordered. apply ordered_same.
  intros i Hi%elem_of_seq. lia.
Qed.

Lemma compare_unordered_same headers rows keys :
  _compare_unordered headers rows headers rows keys = ([], [], []).
Proof.
  unfold _compare_unordered.
  rewrite difference_diag_L, elements_empty. simpl.
  rewrite omap_all_None; [done|].
  intros k _. destruct (key_map keys rows !! k) as [r|]; [|done].
  simpl. apply modified_entry_same.
Qed.

Lemma compare_multiset_same headers rows :
  compare_multiset headers rows headers rows = ([], [], []).
Proof.
  unfold compare_multiset.
  by rewrite counter_sub_same by apply counter_of_NoDup.
Qed.

(** C8: a table compared with an identical copy of itself gives empty
    [added], [removed] and [modified], whether the mode is ordered, keyed or
    multiset. *)
Theorem compare_identical headers rows keys ordered raw :
  compare_csv_files headers rows headers rows keys ordered raw
  = inr (mkDiffResult [] [] [] raw).
Proof.
  unfold compare_csv_files. destruct ordered.
  - by rewrite compare_ordered_same.
  - destruct keys as [[|k ks]|].
    + by rewrite compare_multiset_same.
    + by rewrite compare_unordered_same.
    + by rewrite compare_multiset_same.
Qed.

(** *** Keyed mode and the key columns *)

Lemma make_key_eq_iff keys r1 r2 :
  _make_key r1 keys = _make_key r2 keys
  ↔ ∀ col, col ∈ keys → row_get r1 col = row_get r2 col.
Proof.
  unfold _make_key. induction keys as [|col keys IH]; csimpl.
  - split; [|done]. by intros _ col ?%elem_of_nil.
  - split.
    + intros [= Hcol Hrest] c [->|Hc]%elem_of_cons; [done|].
      by apply IH.
    + intros H. f_equal.
      * apply H, list_elem_of_here.
      * apply IH. intros c Hc. by apply H, list_elem_of_further.
Qed.

(** C1 (as the code has it): in keyed mode a requested key column that a
    source lacks raises nothing.  The comparison returns the [DiffResult] of
    [_compare_unordered], and a record takes the empty string as the component
    of its key for every key column it does not have. *)
Theorem keyed_missing_column_no_error headers1 rows1 headers2 rows2 kc kcs raw :
  (let '(added, removed, modified) :=
     _compare_unordered headers1 rows1 headers2 rows2 (kc :: kcs) in
   compare_csv_files headers1 rows1 headers2 rows2 (Some (kc :: kcs)) false raw
   = inr (mkDiffResult added removed modified raw))
  ∧ ∀ r i col,
      (kc :: kcs) !! i = Some col → r !! col = None →
      (_make_key r (kc :: kcs)) !! i = Some "".
Proof.
  split.
  - unfold compare_csv_files.
    by destruct (_compare_unordered _ _ _ _ _) as [[a rm] m].
  - intros r i col Hi Hcol. unfold _make_key.
    rewrite list_lookup_fmap, Hi. simpl. unfold row_get. by rewrite Hcol.
Qed.

(** C9: the key of keyed mode is the tuple of the raw key-column values,
    component by component, with nothing trimmed or normalised: two records
    have the same key exactly when every key column holds the same string in
    both.  So in any two tables, a record of the old table and a record of the
    new table are two identities as soon as their key values differ in any
    way: when no record of the new table has the old record's key values and
    no record of the old table has the new record's, the old record's key has
    exactly one entry, in [removed], the new record's key has exactly one, in
    [added] (each carrying the last row of its table with that key), and
    neither key has an entry in [modified].  For two single-record tables that
    is all there is. *)
Theorem raw_key_identity headers1 rows1 headers2 rows2 keys r1 r2 :
  let k1 := _make_key r1 keys in
  let k2 := _make_key r2 keys in
  let on_key k := filter (λ rc, key rc = KStr k) in
  let '(added, removed, modified) :=
    _compare_unordered headers1 rows1 headers2 rows2 keys in
  (∀ i col, keys !! i = Some col → k1 !! i = Some (row_get r1 col))
  ∧ (k1 = k2 ↔ ∀ col, col ∈ keys → row_get r1 col = row_get r2 col)
  ∧ (r1 ∈ rows1 → r2 ∈ rows2 →
     (∀ r, r ∈ rows2 → ∃ col, col ∈ keys ∧ row_get r col ≠ row_get r1 col) →
     (∀ r, r ∈ rows1 → ∃ col, col ∈ keys ∧ row_get r col ≠ row_get r2 col) →
     ∃ r1' r2',
       last (filter (λ r, _make_key r keys = k1) rows1) = Some r1'
       ∧ last (filter (λ r, _make_key r keys = k2) rows2) = Some r2'
       ∧ on_key k1 removed = [mkRowChange "removed" (KStr k1) [] (Some r1') None]
       ∧ on_key k2 added = [mkRowChange "added" (KStr k2) [] None (Some r2')]
       ∧ on_key k1 added = [] ∧ on_key k1 modified = []
       ∧ on_key k2 removed = [] ∧ on_key k2 modified = [])
  ∧ (k1 ≠ k2 →
     _compare_unordered headers1 [r1] headers2 [r2] keys
     = ([mkRowChange "added" (KStr k2) [] None (Some r2)],
        [mkRowChange "removed" (KStr k1) [] (Some r1) None],
        [])).
Proof.
  intros k1 k2 on_key.
  pose proof (compare_unordered_on_key headers1 rows1 headers2 rows2 keys k1)
    as Hk1.
  pose proof (compare_unordered_on_key headers1 rows1 headers2 rows2 keys k2)
    as Hk2.
  cbv zeta in Hk1, Hk2.
  destruct (_compare_unordered headers1 rows1 headers2 rows2 keys)
    as [[added removed] modified].
  split_and!.
  - intros i col Hi. subst k1. unfold _make_key.
    by rewrite list_lookup_fmap, Hi.
  - apply make_key_eq_iff.
  - intros Hr1 Hr2 Hno1 Hno2.
    assert (last (filter (λ r, _make_key r keys = k1) rows2) = None) as H12.
    { apply last_filter_None. intros r Hr Heq.
      destruct (Hno1 r Hr) as (col & Hcol & Hne).
      apply Hne. by apply (proj1 (make_key_eq_iff keys r r1)). }
    assert (last (filter (λ r, _make_key r keys = k2) rows1) = None) as H21.
    { apply last_filter_None. intros r Hr Heq.
      destruct (Hno2 r Hr) as (col & Hcol & Hne).
      apply Hne. by apply (proj1 (make_key_eq_iff keys r r2)). }
    destruct (proj2 (last_filter_is_Some (λ r, _make_key r keys = k1) rows1))
      as [r1' H11]; [by exists r1|].
    destruct (proj2 (last_filter_is_Some (λ r, _make_key r keys = k2) rows2))
      as [r2' H22]; [by exists r2|].
    rewrite H11, H12 in Hk1. rewrite H21, H22 in Hk2.
    exists r1', r2'. subst on_key. simpl. tauto.
  - intros Hne. unfold _compare_unordered, key_map. simpl.
    rewrite !insert_empty, !dom_singleton_L.
    assert (({[_make_key r1 keys]} : gset (list string)) ∖ {[_make_key r2 keys]}
            = {[_make_key r1 keys]}) as -> by set_solver.
    assert (({[_make_key r2 keys]} : gset (list string)) ∖ {[_make_key r1 keys]}
            = {[_make_key r2 keys]}) as -> by set_solver.
    assert (({[_make_key r1 keys]} : gset (list string)) ∩ {[_make_key r2 keys]}
            = ∅) as -> by set_solver.
    rewrite !elements_singleton, elements_empty. simpl.
    by rewrite !lookup_singleton_eq.
Qed.

(** *** Multiset mode *)

(** C7: with neither ordering nor key columns the result has no [modified]
    entry; every entry of [added] (of [removed]) is an addition (a removal)
    of a full-row tuple; a tuple occurs in [added] as many times as its count
    in the new table exceeds its count in the old one, and in [removed] the
    other way round; and when the tables differ in one row only, whose tuple
    changed, the result is one removal and one addition. *)
Theorem multiset_mode headers1 rows1 headers2 rows2 keys raw :
  keys = None ∨ keys = Some [] →
  let tuple_headers := dict_fromkeys (headers1 ++ headers2) in
  let ts1 := to_tuple tuple_headers <$> rows1 in
  let ts2 := to_tuple tuple_headers <$> rows2 in
  let add t := mkRowChange "added" (KStr t) [] None
                 (Some (row_of_tuple tuple_headers t)) in
  let rem t := mkRowChange "removed" (KStr t) []
                 (Some (row_of_tuple tuple_headers t)) None in
  ∃ added removed,
    compare_csv_files headers1 rows1 headers2 rows2 keys false raw
    = inr (mkDiffResult added removed [] raw)
    ∧ (∀ rc, rc ∈ added → ∃ t, rc = add t)
    ∧ (∀ rc, rc ∈ removed → ∃ t, rc = rem t)
    ∧ (∀ t, count_key (KStr t) added = occurrences t ts2 - occurrences t ts1)
    ∧ (∀ t, count_key (KStr t) removed = occurrences t ts1 - occurrences t ts2)
    ∧ (∀ pre post r r',
         rows1 = pre ++ r :: post → rows2 = pre ++ r' :: post →
         to_tuple tuple_headers r ≠ to_tuple tuple_headers r' →
         added = [add (to_tuple tuple_headers r')]
         ∧ removed = [rem (to_tuple tuple_headers r)]).
Proof.
  intros Hkeys cols ts1 ts2 add rem.
  pose (c1 := counter_of ts1). pose (c2 := counter_of ts2).
  exists (mjoin ((λ '(t, n), replicate n (add t)) <$> counter_sub c2 c1)),
         (mjoin ((λ '(t, n), replicate n (rem t)) <$> counter_sub c1 c2)).
  assert (∀ (mk : list string → RowChange) (c : Counter) rc,
            rc ∈ mjoin ((λ '(t, n), replicate n (mk t)) <$> c) → ∃ t, rc = mk t)
    as Hshape.
  { intros mk c rc (l & Hrc & ([t n] & -> & _)%list_elem_of_fmap)%list_elem_of_join.
    apply elem_of_replicate in Hrc as [-> _]. by exists t. }
  assert (∀ t, counter_get (counter_sub c2 c1) t
               = occurrences t ts2 - occurrences t ts1) as Hadd.
  { intros t. rewrite counter_get_sub by apply counter_of_NoDup.
    unfold c1, c2. by rewrite !counter_get_of. }
  assert (∀ t, counter_get (counter_sub c1 c2) t
               = occurrences t ts1 - occurrences t ts2) as Hrem.
  { intros t. rewrite counter_get_sub by apply counter_of_NoDup.
    unfold c1, c2. by rewrite !counter_get_of. }
  split_and!.
  - unfold compare_csv_files. by destruct Hkeys as [-> | ->].
  - apply Hshape.
  - apply Hshape.
  - intros t. rewrite count_key_expand; [apply Hadd|done|].
    apply counter_sub_NoDup, counter_of_NoDup.
  - intros t. rewrite count_key_expand; [apply Hrem|done|].
    apply counter_sub_NoDup, counter_of_NoDup.
  - intros pre post r r' Hrows1 Hrows2 Hne.
    assert (∀ u, occurrences u ts2 + (if decide (to_tuple cols r = u) then 1 else 0)
                 = occurrences u ts1 + (if decide (to_tuple cols r' = u) then 1 else 0))
      as Hocc.
    { intros u. unfold ts1, ts2. rewrite Hrows1, Hrows2.
      rewrite !fmap_app, !fmap_cons, !occurrences_app, !occurrences_cons. lia. }
    rewrite (counter_single (counter_sub c2 c1) (to_tuple cols r')).
    + rewrite (counter_single (counter_sub c1 c2) (to_tuple cols r)).
      * done.
      * apply counter_sub_NoDup, counter_of_NoDup.
      * apply counter_sub_positive.
      * intros u. rewrite Hrem. specialize (Hocc u).
        repeat case_decide; simplify_eq; lia.
    + apply counter_sub_NoDup, counter_of_NoDup.
    + apply counter_sub_positive.
    + intros u. rewrite Hadd. specialize (Hocc u).
      repeat case_decide; simplify_eq; lia.
Qed.

(** *** Worked instances *)
Import Samples.

(** Keyed on [id]: record 1 changed its phone, so it has one [modified]
    entry with the one changed cell and no other entry; record 2 is on the
    old side only and has one [removed] entry; record 3 is on the new side
    only and has one [added] entry; record 4 is unchanged and has none. *)
Lemma keyed_partition_witness :
  let '(added, removed, modified) :=
    _compare_unordered roster_headers roster_old roster_headers roster_new ["id"] in
  (filter (λ rc, key rc = KStr ["1"]) added = []
   ∧ filter (λ rc, key rc = KStr ["1"]) removed = []
   ∧ filter (λ rc, key rc = KStr ["1"]) modified
     = [mkRowChange "modified" (KStr ["1"])
          [mkCellChange "phone" (Some "123") (Some "124")]
          (Some (row3 "1" "Alice" "123")) (Some (row3 "1" "Alice" "124"))])
  ∧ (filter (λ rc, key rc = KStr ["2"]) removed
     = [mkRowChange "removed" (KStr ["2"]) [] (Some (row3 "2" "Bob" "555")) None]
     ∧ filter (λ rc, key rc = KStr ["2"]) added = []
     ∧ filter (λ rc, key rc = KStr ["2"]) modified = [])
  ∧ (filter (λ rc, key rc = KStr ["3"]) added
     = [mkRowChange "added" (KStr ["3"]) [] None (Some (row3 "3" "Carol" "777"))]
     ∧ filter (λ rc, key rc = KStr ["3"]) removed = []
     ∧ filter (λ rc, key rc = KStr ["3"]) modified = [])
  ∧ (filter (λ rc, key rc = KStr ["4"]) added = []
     ∧ filter (λ rc, key rc = KStr ["4"]) removed = []
     ∧ filter (λ rc, key rc = KStr ["4"]) modified = []).
Proof.
  pose proof (keyed_partition roster_headers roster_old roster_headers
                roster_new ["id"] ["1"]) as H1.
  pose proof (keyed_partition roster_headers roster_old roster_headers
                roster_new ["id"] ["2"]) as H2.
  pose proof (keyed_partition roster_headers roster_old roster_headers
                roster_new ["id"] ["3"]) as H3.
  pose proof (keyed_partition roster_headers roster_old roster_headers
                roster_new ["id"] ["4"]) as H4.
  cbv zeta in H1, H2, H3, H4.
  remember (_compare_unordered roster_headers roster_old roster_headers
              roster_new ["id"]) as res eqn:E in *.
  clear E. destruct res as [[added removed] modified].
  destruct H1 as (_ & _ & H1). destruct H2 as (_ & _ & H2).
  destruct H3 as (_ & _ & H3). destruct H4 as (_ & _ & H4).
  replace (last (filter (λ r, _make_key r ["id"] = ["1"]) roster_old))
    with (Some (row3 "1" "Alice" "123")) in H1 by (vm_compute; reflexivity).
  replace (last (filter (λ r, _make_key r ["id"] = ["1"]) roster_new))
    with (Some (row3 "1" "Alice" "124")) in H1 by (vm_compute; reflexivity).
  replace (cell_changes (dict_fromkeys (roster_headers ++ roster_headers))
            (row3 "1" "Alice" "123") (row3 "1" "Alice" "124"))
    with ([mkCellChange "phone" (Some "123") (Some "124")]) in H1 by (vm_compute; reflexivity).
  replace (last (filter (λ r, _make_key r ["id"] = ["2"]) roster_old))
    with (Some (row3 "2" "Bob" "555")) in H2 by (vm_compute; reflexivity).
  replace (last (filter (λ r, _make_key r ["id"] = ["2"]) roster_new))
    with (@None Row) in H2 by (vm_compute; reflexivity).
  replace (last (filter (λ r, _make_key r ["id"] = ["3"]) roster_old))
    with (@None Row) in H3 by (vm_compute; reflexivity).
  replace (last (filter (λ r, _make_key r ["id"] = ["3"]) roster_new))
    with (Some (row3 "3" "Carol" "777")) in H3 by (vm_compute; reflexivity).
  replace (last (filter (λ r, _make_key r ["id"] = ["4"]) roster_old))
    with (Some (row3 "4" "Dan" "1")) in H4 by (vm_compute; reflexivity).
  replace (last (filter (λ r, _make_key r ["id"] = ["4"]) roster_new))
    with (Some (row3 "4" "Dan" "1")) in H4 by (vm_compute; reflexivity).
  replace (cell_changes (dict_fromkeys (roster_headers ++ roster_headers))
            (row3 "4" "Dan" "1") (row3 "4" "Dan" "1"))
    with (@nil CellChange) in H4 by (vm_compute; reflexivity).
  destruct H1 as (Ha1 & Hr1 & Hm1 & _). destruct H4 as (Ha4 & Hr4 & Hm4 & _).
  exact (conj (conj Ha1 (conj Hr1 Hm1))
           (conj H2 (conj H3 (conj Ha4 (conj Hr4 Hm4))))).
Defined.

(** The key column [email] is in neither header, and the comparison returns
    a result all the same: both records get the key [("",)] and are paired. *)
Lemma keyed_missing_column_counterexample :
  ("email" ∉ ["name"; "val"])
  ∧ compare_csv_files ["name"; "val"] [row2 "Alice" "1"]
      ["name"; "val"] [row2 "Alicia" "1"] (Some ["email"]) false None
    = inr (mkDiffResult [] []
             [mkRowChange "modified" (KStr [""])
                [mkCellChange "name" (Some "Alice") (Some "Alicia")]
                (Some (row2 "Alice" "1")) (Some (row2 "Alicia" "1"))]
             None)
  ∧ compare_csv_files ["name"; "val"] [row2 "Alice" "1"]
      ["name"; "val"] [row2 "Alicia" "1"] (Some ["email"]) false None
    ≠ inl ConfigurationError.
Proof.
  split_and!.
  - intros H. repeat (apply elem_of_cons in H as [H|H]; [discriminate|]).
    by apply elem_of_nil in H.
  - vm_compute. reflexivity.
  - discriminate.
Qed.

Lemma keyed_missing_column_witness :
  (_make_key (row2 "Alice" "1") ["email"]) !! 0 = Some "".
Proof.
  apply (proj2 (keyed_missing_column_no_error [] [] [] [] "email" [] None)
           (row2 "Alice" "1") 0 "email"); reflexivity.
Defined.

(** Ordered mode on tables of unequal length: the record at index 1 of the
    old table has no partner and is removed. *)
Example ordered_length_mismatch :
  _compare_ordered ["name"; "val"] [row2 "A" "1"; row2 "B" "2"]
    ["name"; "val"] [row2 "A" "1"]
  = ([], [mkRowChange "removed" (KIdx 1) [] (Some (row2 "B" "2")) None], []).
Proof. vm_compute. reflexivity. Qed.

(** Keys that differ in case, or in a trailing blank, are two identities,
    wherever the records stand in their tables. *)
Lemma raw_key_identity_witness :
  let '(added, removed, modified) :=
    _compare_unordered roster_headers
      [row3 "1" "Alice" "123"; row3 "B7" "Bob" "555"; row3 "4" "Dan" "1"]
      roster_headers
      [row3 "1" "Alice" "123"; row3 "4" "Dan" "1"; row3 "b7 " "Bob" "555"]
      ["id"] in
  filter (λ rc, key rc = KStr ["B7"]) removed
  = [mkRowChange "removed" (KStr ["B7"]) [] (Some (row3 "B7" "Bob" "555")) None]
  ∧ filter (λ rc, key rc = KStr ["b7 "]) added
    = [mkRowChange "added" (KStr ["b7 "]) [] None (Some (row3 "b7 " "Bob" "555"))]
  ∧ filter (λ rc, key rc = KStr ["B7"]) modified = []
  ∧ filter (λ rc, key rc = KStr ["b7 "]) modified = [].
Proof.
  pose proof (raw_key_identity roster_headers
                [row3 "1" "Alice" "123"; row3 "B7" "Bob" "555"; row3 "4" "Dan" "1"]
                roster_headers
                [row3 "1" "Alice" "123"; row3 "4" "Dan" "1"; row3 "b7 " "Bob" "555"]
                ["id"] (row3 "B7" "Bob" "555") (row3 "b7 " "Bob" "555")) as H.
  cbv zeta in H.
  remember (_compare_unordered _ _ _ _ _) as res eqn:E in *.
  clear E. destruct res as [[added removed] modified].
  destruct H as (_ & _ & H & _).
  destruct H as (r1' & r2' & H1 & H2 & Hr & Ha & _ & Hm1 & _ & Hm2).
  - apply list_elem_of_further, list_elem_of_here.
  - do 2 apply list_elem_of_further. apply list_elem_of_here.
  - intros r Hr. exists "id". split; [apply list_elem_of_here|].
    repeat (apply elem_of_cons in Hr as [->|Hr]; [vm_compute; discriminate|]).
    by apply elem_of_nil in Hr.
  - intros r Hr. exists "id". split; [apply list_elem_of_here|].
    repeat (apply elem_of_cons in Hr as [->|Hr]; [vm_compute; discriminate|]).
    by apply elem_of_nil in Hr.
  - replace (last (filter _ _)) with (Some (row3 "B7" "Bob" "555")) in H1
      by (vm_compute; reflexivity).
    replace (last (filter _ _)) with (Some (row3 "b7 " "Bob" "555")) in H2
      by (vm_compute; reflexivity).
    injection H1 as <-. injection H2 as <-.
    exact (conj Hr (conj Ha (conj Hm1 Hm2))).
Defined.

(** One cell edited, no keys: one removal of [(A, 1)], one addition of
    [(A, 2)], nothing modified. *)
Lemma multiset_mode_witness :
  compare_csv_files ["name"; "val"] [row2 "A" "1"]
    ["name"; "val"] [row2 "A" "2"] None false None
  = inr (mkDiffResult
           [mkRowChange "added" (KStr ["A"; "2"]) [] None (Some (row2 "A" "2"))]
           [mkRowChange "removed" (KStr ["A"; "1"]) [] (Some (row2 "A" "1")) None]
           [] None).
Proof.
  destruct (multiset_mode ["name"; "val"] [row2 "A" "1"]
              ["name"; "val"] [row2 "A" "2"] None None (or_introl eq_refl))
    as (added & removed & Heq & _ & _ & _ & _ & Hedit).
  destruct (Hedit [] [] (row2 "A" "1") (row2 "A" "2") eq_refl eq_refl)
    as [-> ->].
  - vm_compute. discriminate.
  - rewrite Heq. vm_compute. reflexivity.
Defined.

End CoreSpec.

(** * The matcher always returns *)
Module DifflibSpec.
Import Difflib.

Section bounds.
Variables a b : list ascii.

Lemma scan_row_inside alo ahi blo bhi i j2len js newj2len best :
  alo ≤ i → i < ahi →
  runs_below (i - alo) blo j2len →
  runs_below (i + 1 - alo) blo newj2len →
  inside alo ahi blo bhi best →
  let res := scan_row blo bhi i j2len js newj2len best in
  runs_below (i + 1 - alo) blo res.1 ∧ inside alo ahi blo bhi res.2.
Proof.
  intros Hlo Hhi Hold. revert newj2len best.
  induction js as [|j js IH]; intros newj2len best Hnew Hbest; simpl.
  - done.
  - case_decide as Hjlo; [by apply IH|]. case_decide as Hjhi; [done|].
    set (k := match j with
              | O => 0
              | S j' => default 0 (j2len !! j')
              end + 1).
    assert (k ≤ i + 1 - alo ∧ k + blo ≤ j + 1) as Hk.
    { unfold k. destruct j as [|j']; [lia|].
      destruct (j2len !! j') as [k'|] eqn:Hj; simpl; [|lia].
      apply Hold in Hj. lia. }
    apply IH.
    + intros j0 k0. destruct (decide (j = j0)) as [->|Hne].
      * rewrite lookup_insert_eq. by intros [= <-].
      * rewrite lookup_insert_ne by done. apply Hnew.
    + case_decide; [|done]. unfold inside. simpl. lia.
Qed.

Lemma scan_rows_inside alo ahi blo bhi n :
  ∀ start j2len best,
    alo ≤ start → start + n ≤ ahi →
    runs_below (start - alo) blo j2len →
    inside alo ahi blo bhi best →
    inside alo ahi blo bhi
      (foldl (λ '(j2len, best) i,
                scan_row blo bhi i j2len (b2j b (at_ a i)) ∅ best)
             (j2len, best) (seq start n)).2.
Proof.
  induction n as [|n IH]; intros start j2len best Hlo Hhi Hruns Hbest.
  - done.
  - simpl.
    destruct (scan_row_inside alo ahi blo bhi start j2len
                (b2j b (at_ a start)) ∅ best) as [Hruns' Hbest'];
      [lia|lia|done| |done|].
    { intros j k. by rewrite lookup_empty. }
    destruct (scan_row blo bhi start j2len (b2j b (at_ a start)) ∅ best)
      as [j2len' best'].
    apply IH; [lia|lia| |done].
    simpl in Hruns'. by replace (S start - alo) with (start + 1 - alo) by lia.
Qed.

Lemma extend_left_inside n alo ahi blo bhi best :
  inside alo ahi blo bhi best →
  inside alo ahi blo bhi (extend_left a b n alo blo best).
Proof.
  revert best. induction n as [|n IH]; intros [[besti bestj] bestsize] H.
  - done.
  - simpl. case_decide as Hc; [|done]. apply IH.
    unfold inside in *. simpl in *. lia.
Qed.

Lemma extend_right_inside n alo ahi blo bhi best :
  inside alo ahi blo bhi best →
  inside alo ahi blo bhi (extend_right a b n ahi bhi best).
Proof.
  revert best. induction n as [|n IH]; intros [[besti bestj] bestsize] H.
  - done.
  - simpl. case_decide as Hc; [|done]. apply IH.
    unfold inside in *. simpl in *. lia.
Qed.

(** The two extension loops are not cut short: one more iteration than
    the count they are given changes nothing. *)
Lemma extend_left_stable n alo blo :
  ∀ best, best.1.1 - alo ≤ n →
          extend_left a b (S n) alo blo best = extend_left a b n alo blo best.
Proof.
  induction n as [|n IH]; intros [[besti bestj] bestsize] Hn; simpl in Hn.
  - simpl. case_decide as Hc; [lia|done].
  - change (extend_left a b (S (S n)) alo blo (besti, bestj, bestsize))
      with (if decide (alo < besti ∧ blo < bestj
                       ∧ at_ a (besti - 1) = at_ b (bestj - 1))
            then extend_left a b (S n) alo blo
                   (besti - 1, bestj - 1, bestsize + 1)
            else (besti, bestj, bestsize)).
    change (extend_left a b (S n) alo blo (besti, bestj, bestsize))
      with (if decide (alo < besti ∧ blo < bestj
                       ∧ at_ a (besti - 1) = at_ b (bestj - 1))
            then extend_left a b n alo blo
                   (besti - 1, bestj - 1, bestsize + 1)
            else (besti, bestj, bestsize)).
    case_decide; [|done]. apply IH. simpl. lia.
Qed.

Lemma extend_right_stable n ahi bhi :
  ∀ best, ahi - (best.1.1 + best.2) ≤ n →
          extend_right a b (S n) ahi bhi best = extend_right a b n ahi bhi best.
Proof.
  induction n as [|n IH]; intros [[besti bestj] bestsize] Hn; simpl in Hn.
  - simpl. case_decide as Hc; [lia|done].
  - change (extend_right a b (S (S n)) ahi bhi (besti, bestj, bestsize))
      with (if decide (besti + bestsize < ahi ∧ bestj + bestsize < bhi
                       ∧ at_ a (besti + bestsize) = at_ b (bestj + bestsize))
            then extend_right a b (S n) ahi bhi (besti, bestj, bestsize + 1)
            else (besti, bestj, bestsize)).
    change (extend_right a b (S n) ahi bhi (besti, bestj, bestsize))
      with (if decide (besti + bestsize < ahi ∧ bestj + bestsize < bhi
                       ∧ at_ a (besti + bestsize) = at_ b (bestj + bestsize))
            then extend_right a b n ahi bhi (besti, bestj, bestsize + 1)
            else (besti, bestj, bestsize)).
    case_decide; [|done]. apply IH. simpl. lia.
Qed.

Lemma find_longest_match_inside alo ahi blo bhi :
  alo ≤ ahi → blo ≤ bhi →
  inside alo ahi blo bhi (find_longest_match a b alo ahi blo bhi).
Proof.
  intros Hle Hle'. unfold find_longest_match.
  pose proof (scan_rows_inside alo ahi blo bhi (ahi - alo) alo ∅ (alo, blo, 0))
    as Hscan.
  destruct (foldl _ _ _) as [j2len best].
  apply extend_right_inside, extend_left_inside. apply Hscan.
  - lia.
  - lia.
  - intros j k. by rewrite lookup_empty.
  - unfold inside. simpl. lia.
Qed.

Lemma blocks_loop_total fuel :
  ∀ queue acc,
    Forall well_formed_range queue →
    pending queue ≤ fuel →
    is_Some (blocks_loop a b fuel queue acc).
Proof.
  induction fuel as [|fuel IH]; intros [|[[[alo ahi] blo] bhi] queue] acc Hq Hfuel.
  - by eexists.
  - unfold pending, pending_range in Hfuel. simpl in Hfuel. lia.
  - by eexists.
  - apply Forall_cons in Hq as [[Hle Hle'] Hq]. simpl in Hle, Hle'.
    unfold pending in Hfuel. simpl in Hfuel.
    fold (pending queue) in Hfuel. unfold pending_range in Hfuel.
    simpl in Hfuel. simpl.
    pose proof (find_longest_match_inside alo ahi blo bhi Hle Hle') as Hin.
    destruct (find_longest_match a b alo ahi blo bhi) as [[i j] k].
    unfold inside in Hin. simpl in Hin.
    case_decide as Hk; [apply IH; [done|lia]|].
    apply IH.
    + repeat case_decide; simpl;
        repeat (apply Forall_cons; split); try done;
        unfold well_formed_range; simpl; lia.
    + unfold pending. rewrite !sum_list_with_app.
      fold (pending queue).
      repeat case_decide; unfold pending_range; simpl; lia.
Qed.

End bounds.

(** Three matchers, with the results of [difflib] on the same inputs. *)
Example ratio_samples :
  ratio "manager" "mananger" = mkRatio 14 15
  ∧ ratio "sales" "marketing" = mkRatio 4 14
  ∧ ratio "o'brien" "obrien" = mkRatio 12 13
  ∧ ratio "" "" = mkRatio 1 1.
Proof. split_and!; vm_compute; reflexivity. Qed.

Example matching_blocks_sample :
  matching_blocks (list_ascii_of_string "abxcd") (list_ascii_of_string "abcd")
  = Some [(0, 0, 2); (3, 2, 2)].
Proof. vm_compute. reflexivity. Qed.

(** The iteration bound of [matching_blocks] is never reached: the loop of
    [get_matching_blocks] ends with the queue empty. *)
Lemma matching_blocks_total (a b : list ascii) : is_Some (matching_blocks a b).
Proof.
  unfold matching_blocks. apply blocks_loop_total.
  - apply Forall_cons. split; [|constructor].
    unfold well_formed_range. simpl. lia.
  - unfold pending, pending_range. simpl. lia.
Qed.

End DifflibSpec.

(** * Properties of the change tracker *)
Module TrackerSpec.
Import PyStr ChangeTracker Samples.

Implicit Types (row : Series) (data : list Series).

(** *** The identity key *)




(** *** Records with an empty key *)

Lemma users_of_app data1 data2 :
  users_of (data1 ++ data2)
  = foldl (λ users row,
             let key := create_user_key row in
             if decide (key = "") then users else <[key := row]> users)
          (users_of data1) data2.
Proof. unfold users_of. by rewrite foldl_app. Qed.


Lemma users_of_no_empty data : users_of data !! "" = None.
Proof.
  induction data as [|row data IH] using rev_ind; [done|].
  rewrite users_of_app. simpl. case_decide as Hk; [done|].
  by rewrite lookup_insert_ne.
Qed.


(** *** The classifier *)

Lemma length_list_ascii_of_string (s : string) :
  length (list_ascii_of_string s) = String.length s.
Proof. induction s as [|c s IH]; simpl; [done|]. by rewrite IH. Qed.

Lemma detect_same (v : option Cell) f : detect_field_change v v f = None.
Proof. unfold detect_field_change. by rewrite decide_True. Qed.


Lemma replace_pair_last_space :
  replace "  " " " (String " " EmptyString) = String " " EmptyString.
Proof. done. Qed.











(** *** The compared fields *)

Lemma user_changes_field (o n : Series) c :
  c ∈ user_changes o n → field c ∈ fields_to_compare.
Proof.
  unfold user_changes. intros (f & Hf & Hc)%list_elem_of_omap.
  unfold detect_field_change in Hc. case_decide; [done|].
  by injection Hc as <-.
Qed.

Lemma user_changes_agree (o n : Series) :
  (∀ f, f ∈ fields_to_compare → o !! f = n !! f) → user_changes o n = [].
Proof.
  intros H. unfold user_changes. apply CoreSpec.omap_all_None.
  intros f Hf. rewrite (H f Hf). apply detect_same.
Qed.

Lemma user_changes_only_fields (o n o' n' : Series) :
  (∀ f, f ∈ fields_to_compare → o !! f = o' !! f ∧ n !! f = n' !! f) →
  user_changes o n = user_changes o' n'.
Proof.
  intros H. unfold user_changes. apply list_omap_ext.
  apply Forall2_same_length_lookup. split; [done|].
  intros i f f' Hf Hf'. assert (f' = f) as -> by congruence.
  destruct (H f) as [-> ->]; [|done]. by eapply list_elem_of_lookup_2.
Qed.

Lemma compare_step_appends l :
  ∀ acc, ∃ new,
    (foldl compare_step acc l).1.2 = acc.1.2 ++ new
    ∧ ∀ uc c, uc ∈ new → c ∈ changes_of uc → field c ∈ fields_to_compare.
Proof.
  induction l as [|[k [o n]] l IH]; intros [[w chs] total].
  - exists []. split; [by rewrite app_nil_r|]. by intros uc c ?%elem_of_nil.
  - simpl. destruct (user_changes o n) as [|c0 ucs] eqn:Hucs.
    + apply IH.
    + destruct (IH ({[k]} ∪ w,
                    chs ++ [mkUserChange (default (Val "") (o !! "Name"))
                              (default (Val "") (o !! "Chi Name")) (c0 :: ucs)],
                    total + length (c0 :: ucs))) as (new & Hnew & Hfields).
      eexists (_ :: new). split.
      * rewrite Hnew. simpl. by rewrite <- app_assoc.
      * intros uc c [->|Huc]%elem_of_cons Hc; [|by eapply Hfields].
        simpl in Hc. rewrite <- Hucs in Hc. by eapply user_changes_field.
Qed.

Lemma compare_step_nothing l acc :
  (∀ k o n, (k, (o, n)) ∈ l → user_changes o n = []) →
  foldl compare_step acc l = acc.
Proof.
  revert acc. induction l as [|[k [o n]] l IH]; intros [[w chs] total] H; [done|].
  simpl. rewrite (H k o n) by apply list_elem_of_here.
  apply IH. intros k' o' n' Hin. eapply H. by apply list_elem_of_further.
Qed.

(** C10: [compare_users] looks at Name, Title, Phone, Fax and Location only.
    Every change it adds is on one of these five fields; the changes of a
    matched pair are the same for any two records that agree with the pair
    on the five fields; and when every matched pair agrees on the five
    fields, whatever the other columns hold, no change is added, the count
    of field changes stays as it was and no user is counted as changed. *)
Theorem compare_users_fields (common : gmap string (Series * Series)) self :
  (∃ new, changes (compare_users common self) = changes self ++ new
          ∧ ∀ uc c, uc ∈ new → c ∈ changes_of uc →
                    field c ∈ fields_to_compare)
  ∧ (∀ o n o' n' : Series,
       (∀ f, f ∈ fields_to_compare → o !! f = o' !! f ∧ n !! f = n' !! f) →
       user_changes o n = user_changes o' n')
  ∧ ((∀ k o n, common !! k = Some (o, n) →
               ∀ f, f ∈ fields_to_compare → o !! f = n !! f) →
     changes (compare_users common self) = changes self
     ∧ total_field_changes (statistics (compare_users common self))
       = total_field_changes (statistics self)
     ∧ users_with_changes (statistics (compare_users common self)) = 0).
Proof.
  split_and!.
  - unfold compare_users.
    destruct (compare_step_appends (map_to_list common)
                (∅, changes self, total_field_changes (statistics self)))
      as (new & Hnew & Hfields).
    exists new. split; [|done].
    by destruct (foldl _ _ _) as [[w chs] total].
  - apply user_changes_only_fields.
  - intros H. unfold compare_users.
    rewrite compare_step_nothing; [done|].
    intros k o n Hin%elem_of_map_to_list. apply user_changes_agree.
    by apply (H k).
Qed.

(** *** Worked instances *)









(** A matched pair that differs in its Email column only: nothing is
    reported and nothing is counted. *)
Lemma compare_users_fields_witness :
  let common : gmap string (Series * Series) :=
    {["ANN LEE" := (person_email "Ann Lee" "Clerk" "ann@old.example",
                    person_email "Ann Lee" "Clerk" "ann@new.example")]} in
  changes (compare_users common fresh_tracker) = []
  ∧ total_field_changes (statistics (compare_users common fresh_tracker)) = 0
  ∧ users_with_changes (statistics (compare_users common fresh_tracker)) = 0.
Proof.
  intros common.
  apply (proj2 (proj2 (compare_users_fields common fresh_tracker))).
  intros k o n Hk f Hf.
  apply lookup_singleton_Some in Hk as [_ [= <- <-]].
  repeat (apply elem_of_cons in Hf as [->|Hf]; [vm_compute; reflexivity|]).
  by apply elem_of_nil in Hf.
Defined.

End TrackerSpec.


(** * Further properties of the comparison core *)
Module CoreExtra.
Import Core CoreSpec.

Implicit Types (r : Row) (k t : list string) (rows : list Row).

(** *** The key map of keyed mode *)

Lemma key_map_size keys rows : size (key_map keys rows) ≤ length rows.
Proof.
  induction rows as [|r rows IH] using rev_ind.
  { unfold key_map. simpl. by rewrite map_size_empty. }
  rewrite key_map_snoc, length_app. simpl.
  destruct (key_map keys rows !! _make_key r keys) as [r'|] eqn:Hk.
  - rewrite map_size_insert_Some by done. lia.
  - rewrite map_size_insert_None by done. lia.
Qed.

(** Duplicate keys collapse: a key is in the map exactly when some row
    carries it, the row kept for it is the last such row, and the map never
    has more entries than the table has rows. *)
Theorem key_map_last_wins keys rows k :
  (k ∈ dom (key_map keys rows) ↔ ∃ r, r ∈ rows ∧ _make_key r keys = k)
  ∧ key_map keys rows !! k = last (filter (λ r, _make_key r keys = k) rows)
  ∧ size (key_map keys rows) ≤ length rows.
Proof.
  split_and!.
  - apply key_map_dom.
  - apply key_map_lookup.
  - apply key_map_size.
Qed.

(** *** The unioned column list *)

Lemma fromkeys_from_ext seen seen' l :
  (∀ x, x ∈ seen ↔ x ∈ seen') → fromkeys_from seen l = fromkeys_from seen' l.
Proof.
  revert seen seen'. induction l as [|x l IH]; intros seen seen' Hs; [done|].
  simpl. destruct (decide (x ∈ seen)) as [Hin|Hnin].
  - rewrite decide_True by by apply Hs. by apply IH.
  - rewrite decide_False by by rewrite <- Hs. f_equal. apply IH.
    intros y. rewrite !elem_of_cons. by rewrite Hs.
Qed.

Lemma fromkeys_from_app seen l1 l2 :
  fromkeys_from seen (l1 ++ l2)
  = fromkeys_from seen l1 ++ fromkeys_from (l1 ++ seen) l2.
Proof.
  revert seen. induction l1 as [|x l1 IH]; intros seen; [done|].
  simpl. destruct (decide (x ∈ seen)) as [Hin|Hnin].
  - rewrite IH. f_equal. apply fromkeys_from_ext.
    intros y. rewrite elem_of_cons, !elem_of_app.
    split; [tauto|]. intros [->|?]; tauto.
  - rewrite IH. simpl. do 2 f_equal. apply fromkeys_from_ext.
    intros y. rewrite elem_of_cons, !elem_of_app, elem_of_cons. tauto.
Qed.

Lemma fromkeys_from_filter seen l :
  fromkeys_from seen l = filter (λ x, x ∉ seen) (fromkeys_from [] l).
Proof.
  revert seen. induction l as [|x l IH]; intros seen; [done|].
  simpl. destruct (decide (x ∈ [])) as [H|_]; [by apply elem_of_nil in H|].
  rewrite filter_cons.
  rewrite (IH [x]), list_filter_filter.
  destruct (decide (x ∈ seen)) as [Hin|Hnin].
  - rewrite decide_False by tauto. rewrite IH.
    apply list_filter_iff. intros y. rewrite list_elem_of_singleton.
    split; [|tauto]. intros Hy. split; [done|]. by intros ->.
  - rewrite decide_True by done. f_equal. rewrite IH.
    apply list_filter_iff. intros y. rewrite elem_of_cons, list_elem_of_singleton.
    tauto.
Qed.

Lemma fromkeys_from_NoDup seen l : NoDup (fromkeys_from seen l).
Proof.
  revert seen. induction l as [|x l IH]; intros seen; simpl; [constructor|].
  case_decide; [apply IH|]. apply NoDup_cons. split; [|apply IH].
  rewrite elem_of_fromkeys_from, elem_of_cons. tauto.
Qed.

(** The columns compared are the union of the two headers, each once: the
    old source's columns in their order of first occurrence, then the columns
    that only the new source has, in theirs. *)
Theorem unioned_columns (headers1 headers2 : list string) :
  NoDup (dict_fromkeys (headers1 ++ headers2))
  ∧ (∀ col, col ∈ dict_fromkeys (headers1 ++ headers2)
            ↔ col ∈ headers1 ∨ col ∈ headers2)
  ∧ dict_fromkeys (headers1 ++ headers2)
    = dict_fromkeys headers1
      ++ filter (λ col, col ∉ headers1) (dict_fromkeys headers2).
Proof.
  split_and!.
  - apply fromkeys_from_NoDup.
  - intros col. by rewrite elem_of_dict_fromkeys, elem_of_app.
  - unfold dict_fromkeys. rewrite fromkeys_from_app, app_nil_r.
    by rewrite (fromkeys_from_filter headers1).
Qed.

(** *** Cell changes *)

Lemma cell_changes_columns cols r1 r2 :
  column <$> cell_changes cols r1 r2
  = filter (λ col, row_get r1 col ≠ row_get r2 col) cols.
Proof.
  unfold cell_changes. induction cols as [|c cols IH]; [done|].
  simpl. rewrite filter_cons. unfold cell_change at 1.
  destruct (decide (row_get r1 c = row_get r2 c)) as [Heq|Hne].
  - by rewrite decide_False by tauto.
  - rewrite decide_True by done. csimpl. by rewrite IH.
Qed.

Lemma cell_changes_nil_iff cols r1 r2 :
  cell_changes cols r1 r2 = []
  ↔ ∀ col, col ∈ cols → row_get r1 col = row_get r2 col.
Proof.
  split.
  - intros Hnil col Hcol.
    destruct (decide (row_get r1 col = row_get r2 col)) as [|Hne]; [done|].
    assert (mkCellChange col (Some (row_get r1 col)) (Some (row_get r2 col))
            ∈ cell_changes cols r1 r2) as Hin.
    { apply elem_of_cell_changes. by exists col. }
    rewrite Hnil in Hin. by apply elem_of_nil in Hin.
  - intros Hall. apply omap_all_None. intros col Hcol.
    unfold cell_change. by rewrite decide_True by by apply Hall.
Qed.

(** The cell changes of a pair name exactly the compared columns on which
    the two rows differ, in column order and each once when the columns are
    distinct; every one carries the two raw values, which differ. *)
Theorem cell_changes_exact cols r1 r2 :
  column <$> cell_changes cols r1 r2
  = filter (λ col, row_get r1 col ≠ row_get r2 col) cols
  ∧ (NoDup cols → NoDup (column <$> cell_changes cols r1 r2))
  ∧ (∀ c, c ∈ cell_changes cols r1 r2 →
          old c = Some (row_get r1 (column c))
          ∧ new c = Some (row_get r2 (column c))
          ∧ old c ≠ new c)
  ∧ (cell_changes cols r1 r2 = []
     ↔ ∀ col, col ∈ cols → row_get r1 col = row_get r2 col).
Proof.
  split_and!.
  - apply cell_changes_columns.
  - intros Hnd. rewrite cell_changes_columns. by apply NoDup_filter.
  - intros c (col & Hcol & Hne & ->)%elem_of_cell_changes. simpl.
    split_and!; [done..|]. congruence.
  - apply cell_changes_nil_iff.
Qed.

(** *** Rows as the reader delivers them *)

Lemma read_row_lookup headers raw col :
  read_row headers raw !! col
  = if decide (col ∈ headers) then Some (default "" (raw !! col)) else None.
Proof.
  unfold read_row. induction headers as [|h headers IH] using rev_ind.
  - simpl. destruct (decide (col ∈ [])) as [H|_]; [by apply elem_of_nil in H|].
    apply lookup_empty.
  - rewrite foldl_app. simpl. destruct (decide (h = col)) as [->|Hne].
    + rewrite lookup_insert_eq.
      rewrite decide_True; [done|]. apply elem_of_app. right.
      by apply list_elem_of_singleton.
    + rewrite lookup_insert_ne by done. rewrite IH.
      destruct (decide (col ∈ headers)) as [Hin|Hnin].
      * rewrite decide_True; [done|]. apply elem_of_app. by left.
      * rewrite decide_False; [done|].
        intros [?|?%list_elem_of_singleton]%elem_of_app; [done|congruence].
Qed.

(** A row read from a file has exactly the header's columns, each holding
    the file's text or the empty string where the file gave none; and for two
    such rows over one header, the comparison of a matched pair finds a
    modification exactly when the rows differ. *)
Theorem read_row_columns headers raw1 raw2 key :
  dom (read_row headers raw1) = list_to_set headers
  ∧ (∀ col, col ∈ headers →
            row_get (read_row headers raw1) col = default "" (raw1 !! col))
  ∧ (modified_entry (dict_fromkeys (headers ++ headers)) key
       (read_row headers raw1) (read_row headers raw2) = None
     ↔ read_row headers raw1 = read_row headers raw2).
Proof.
  split_and!.
  - apply set_eq. intros col. rewrite elem_of_dom, read_row_lookup.
    rewrite elem_of_list_to_set. case_decide; [|by split; [intros []|]].
    split; [done|]. by eexists.
  - intros col Hcol. unfold row_get. rewrite read_row_lookup.
    by rewrite decide_True.
  - split.
    + intros Hnone. apply map_eq. intros col. rewrite !read_row_lookup.
      case_decide as Hcol; [|done]. f_equal.
      unfold modified_entry in Hnone.
      destruct (cell_changes _ _ _) as [|c cs] eqn:Hcc; [|done].
      rewrite cell_changes_nil_iff in Hcc.
      specialize (Hcc col). unfold row_get in Hcc.
      rewrite !read_row_lookup, !decide_True in Hcc by done.
      apply Hcc. apply elem_of_dict_fromkeys, elem_of_app. by left.
    + intros ->. apply modified_entry_same.
Qed.

(** *** Ordered mode, index by index *)

Lemma ordered_fold cols rows1 rows2 (l : list nat) acc :
  foldl (ordered_step cols rows1 rows2) acc l
  = (acc.1.1 ++ omap (ordered_added rows1 rows2) l,
     acc.1.2 ++ omap (ordered_removed rows1 rows2) l,
     acc.2 ++ omap (ordered_modified cols rows1 rows2) l).
Proof.
  revert acc. induction l as [|i l IH]; intros [[a rm] m].
  - simpl. by rewrite !app_nil_r.
  - simpl. rewrite IH.
    unfold ordered_step, ordered_added, ordered_removed, ordered_modified.
    destruct (rows1 !! i) as [r1|]; [destruct (rows2 !! i) as [r2|]|];
      simpl; [destruct (modified_entry cols (KIdx i) r1 r2)|..];
      simpl; by rewrite <- ?app_assoc.
Qed.

Lemma filter_idx_omap (F : nat → option RowChange) (l : list nat) i :
  NoDup l →
  (∀ x rc, F x = Some rc → key rc = KIdx x) →
  filter (λ rc, key rc = KIdx i) (omap F l)
  = if decide (i ∈ l) then option_list (F i) else [].
Proof.
  intros Hnd HF. induction Hnd as [|x l Hx Hnd IH].
  - destruct (decide (i ∈ [])) as [H|H]; [by apply elem_of_nil in H|done].
  - assert (filter (λ rc, key rc = KIdx i) (omap F (x :: l))
            = (if decide (x = i) then option_list (F x) else [])
              ++ filter (λ rc, key rc = KIdx i) (omap F l)) as ->.
    { simpl. destruct (F x) as [rc|] eqn:HFx.
      - rewrite filter_cons. rewrite (HF _ _ HFx).
        destruct (decide (x = i)) as [->|Hne].
        + by rewrite decide_True.
        + rewrite decide_False; [done|congruence].
      - by destruct (decide (x = i)). }
    rewrite IH. destruct (decide (x = i)) as [->|Hne].
    + rewrite (decide_True (P := i ∈ i :: l)) by apply list_elem_of_here.
      rewrite (decide_False (P := i ∈ l)) by done. by rewrite app_nil_r.
    + destruct (decide (i ∈ l)) as [Hin|Hnin].
      * by rewrite (decide_True (P := i ∈ x :: l)) by by apply list_elem_of_further.
      * rewrite (decide_False (P := i ∈ x :: l)); [done|].
        intros [->|?]%elem_of_cons; done.
Qed.

Lemma length_omap_le {A B} (f : A → option B) (l : list A) :
  length (omap f l) ≤ length l.
Proof. induction l as [|x l IH]; csimpl; [done|]. destruct (f x); csimpl; lia. Qed.

Lemma length_omap_all_Some {A B} (f : A → option B) (l : list A) :
  (∀ x, x ∈ l → is_Some (f x)) → length (omap f l) = length l.
Proof.
  induction l as [|x l IH]; intros H; csimpl; [done|].
  destruct (H x) as [y ->]; [apply list_elem_of_here|]. csimpl.
  rewrite IH; [done|]. intros y' Hy'. by apply H, list_elem_of_further.
Qed.

(** The part of [seq 0 (n `max` m)] below [n] and the part from [n] on. *)
Lemma seq_max_split (n m : nat) :
  seq 0 (n `max` m) = seq 0 n ++ seq n (n `max` m - n).
Proof.
  replace (n `max` m) with (n + (n `max` m - n)) at 1 by lia.
  by rewrite seq_app.
Qed.

(** Ordered mode pairs the rows by position.  An index present on both sides
    has one [modified] entry when some compared column differs and no entry
    otherwise; an index past the end of the new table has one [removed]
    entry, past the end of the old table one [added] entry.  So [added] has
    as many entries as the new table is longer, [removed] as many as the old
    table is longer, and at most one of the two is non-empty. *)
Theorem ordered_by_index headers1 rows1 headers2 rows2 idx :
  let all_columns := dict_fromkeys (headers1 ++ headers2) in
  let on_idx := filter (λ rc, key rc = KIdx idx) in
  let '(added, removed, modified) :=
    _compare_ordered headers1 rows1 headers2 rows2 in
  match rows1 !! idx, rows2 !! idx with
  | Some r1, Some r2 =>
      on_idx added = [] ∧ on_idx removed = []
      ∧ on_idx modified =
          match cell_changes all_columns r1 r2 with
          | [] => []
          | ch => [mkRowChange "modified" (KIdx idx) ch (Some r1) (Some r2)]
          end
  | Some r1, None =>
      on_idx removed = [mkRowChange "removed" (KIdx idx) [] (Some r1) None]
      ∧ on_idx added = [] ∧ on_idx modified = []
  | None, Some r2 =>
      on_idx added = [mkRowChange "added" (KIdx idx) [] None (Some r2)]
      ∧ on_idx removed = [] ∧ on_idx modified = []
  | None, None => on_idx added = [] ∧ on_idx removed = [] ∧ on_idx modified = []
  end
  ∧ length added = length rows2 - length rows1
  ∧ length removed = length rows1 - length rows2
  ∧ length modified ≤ length rows1 `min` length rows2.
Proof.
  unfold _compare_ordered. rewrite ordered_fold. simpl.
  split_and!.
  - rewrite !filter_idx_omap; try apply NoDup_seq.
    2:{ intros x rc. unfold ordered_modified.
        destruct (rows1 !! x); [|done]. destruct (rows2 !! x); [|done].
        apply modified_entry_key. }
    2:{ intros x rc. unfold ordered_removed.
        destruct (rows1 !! x); [|done]. destruct (rows2 !! x); [done|].
        by intros [= <-]. }
    2:{ intros x rc. unfold ordered_added.
        destruct (rows1 !! x); [done|]. by intros [= <-]. }
    unfold ordered_added, ordered_removed, ordered_modified.
    destruct (rows1 !! idx) as [r1|] eqn:H1; destruct (rows2 !! idx) as [r2|] eqn:H2.
    + apply lookup_lt_Some in H1.
      assert (idx ∈ seq 0 (length rows1 `max` length rows2)) as Hin
        by (rewrite elem_of_seq; lia).
      rewrite !(decide_True _ _ Hin). simpl. split_and!; [done..|].
      unfold modified_entry. by destruct (cell_changes _ r1 r2).
    + apply lookup_lt_Some in H1.
      assert (idx ∈ seq 0 (length rows1 `max` length rows2)) as Hin
        by (rewrite elem_of_seq; lia).
      by rewrite !(decide_True _ _ Hin).
    + apply lookup_lt_Some in H2.
      assert (idx ∈ seq 0 (length rows1 `max` length rows2)) as Hin
        by (rewrite elem_of_seq; lia).
      by rewrite !(decide_True _ _ Hin).
    + apply lookup_ge_None in H1, H2.
      assert (idx ∉ seq 0 (length rows1 `max` length rows2)) as Hnin
        by (rewrite elem_of_seq; lia).
      by rewrite !(decide_False _ _ Hnin).
  - rewrite seq_max_split, omap_app, length_app.
    rewrite omap_all_None, length_omap_all_Some.
    + rewrite length_seq. simpl.  lia.
    + intros i Hi%elem_of_seq. unfold ordered_added.
      rewrite lookup_ge_None_2 by lia. by eexists.
    + intros i Hi%elem_of_seq. unfold ordered_added.
      destruct (lookup_lt_is_Some_2 rows1 i) as [r ->]; [lia|done].
  - rewrite Nat.max_comm, seq_max_split, omap_app, length_app.
    rewrite omap_all_None, length_omap_all_Some.
    + rewrite length_seq. simpl.  lia.
    + intros i Hi%elem_of_seq. unfold ordered_removed.
      destruct (lookup_lt_is_Some_2 rows1 i) as [r ->]; [lia|].
      rewrite lookup_ge_None_2 by lia. by eexists.
    + intros i Hi%elem_of_seq. unfold ordered_removed.
      destruct (rows1 !! i); [|done].
      destruct (lookup_lt_is_Some_2 rows2 i) as [r ->]; [lia|done].
  - destruct (decide (length rows1 ≤ length rows2)) as [Hle|Hgt].
    + rewrite seq_max_split, omap_app, length_app.
      rewrite (omap_all_None _ (seq (length rows1) _)).
      * pose proof (length_omap_le (ordered_modified
                      (dict_fromkeys (headers1 ++ headers2)) rows1 rows2)
                      (seq 0 (length rows1))) as Hlen.
        rewrite length_seq in Hlen. simpl. lia.
      * intros i Hi%elem_of_seq. unfold ordered_modified.
        by rewrite lookup_ge_None_2 by lia.
    + rewrite Nat.max_comm, seq_max_split, omap_app, length_app.
      rewrite (omap_all_None _ (seq (length rows2) _)).
      * pose proof (length_omap_le (ordered_modified
                      (dict_fromkeys (headers1 ++ headers2)) rows1 rows2)
                      (seq 0 (length rows2))) as Hlen.
        rewrite length_seq in Hlen. simpl. lia.
      * intros i Hi%elem_of_seq. unfold ordered_modified.
        destruct (rows1 !! i); [|done].
        by rewrite lookup_ge_None_2 by lia.
Qed.

(** *** Keyed mode: the shape and the number of the entries *)

Lemma key_map_lookup_elem keys rows k r :
  key_map keys rows !! k = Some r → r ∈ rows ∧ _make_key r keys = k.
Proof.
  rewrite key_map_lookup. intros [l Hl]%last_Some.
  assert (r ∈ filter (λ r, _make_key r keys = k) rows) as Hin.
  { rewrite Hl. apply elem_of_app. right. by apply list_elem_of_singleton. }
  apply list_elem_of_filter in Hin. tauto.
Qed.

(** In keyed mode [added] has one entry per key that only the new table has
    and [removed] one per key that only the old table has, so their lengths
    are the sizes of the two key-set differences; an added (removed) entry
    has no cell changes and carries a row of the new (old) table with that
    key; a modified entry has at least one cell change and carries a row of
    each table, both with its key. *)
Theorem keyed_entries headers1 rows1 headers2 rows2 keys :
  let map1 := key_map keys rows1 in
  let map2 := key_map keys rows2 in
  let '(added, removed, modified) :=
    _compare_unordered headers1 rows1 headers2 rows2 keys in
  length added = size (dom map2 ∖ dom map1)
  ∧ length removed = size (dom map1 ∖ dom map2)
  ∧ length modified ≤ size (dom map1 ∩ dom map2)
  ∧ (∀ rc, rc ∈ added →
       ∃ k r2, rc = mkRowChange "added" (KStr k) [] None (Some r2)
               ∧ r2 ∈ rows2 ∧ _make_key r2 keys = k
               ∧ ∀ r1, r1 ∈ rows1 → _make_key r1 keys ≠ k)
  ∧ (∀ rc, rc ∈ removed →
       ∃ k r1, rc = mkRowChange "removed" (KStr k) [] (Some r1) None
               ∧ r1 ∈ rows1 ∧ _make_key r1 keys = k
               ∧ ∀ r2, r2 ∈ rows2 → _make_key r2 keys ≠ k)
  ∧ (∀ rc, rc ∈ modified →
       ∃ k r1 r2, kind rc = "modified" ∧ key rc = KStr k
                  ∧ changes rc ≠ []
                  ∧ row_old rc = Some r1 ∧ row_new rc = Some r2
                  ∧ r1 ∈ rows1 ∧ _make_key r1 keys = k
                  ∧ r2 ∈ rows2 ∧ _make_key r2 keys = k).
Proof.
  unfold _compare_unordered. simpl. split_and!.
  - by rewrite length_fmap.
  - by rewrite length_fmap.
  - apply length_omap_le.
  - intros rc (k & -> & [[r2 H2] H1]%elem_of_difference_keys)%list_elem_of_fmap.
    exists k, r2. rewrite H2. split; [done|].
    destruct (key_map_lookup_elem _ _ _ _ H2) as [? ?]. split_and!; [done..|].
    intros r1 Hr1 Hk. apply not_elem_of_dom in H1. apply H1.
    apply key_map_dom. by exists r1.
  - intros rc (k & -> & [[r1 H1] H2]%elem_of_difference_keys)%list_elem_of_fmap.
    exists k, r1. rewrite H1. split; [done|].
    destruct (key_map_lookup_elem _ _ _ _ H1) as [? ?]. split_and!; [done..|].
    intros r2 Hr2 Hk. apply not_elem_of_dom in H2. apply H2.
    apply key_map_dom. by exists r2.
  - intros rc (k & _ & Hrc)%list_elem_of_omap.
    destruct (key_map keys rows1 !! k) as [r1|] eqn:H1; [|done].
    destruct (key_map keys rows2 !! k) as [r2|] eqn:H2; [|done].
    simpl in Hrc. unfold modified_entry in Hrc.
    destruct (cell_changes _ r1 r2) as [|c cs] eqn:Hcc; [done|].
    injection Hrc as <-. exists k, r1, r2. simpl.
    destruct (key_map_lookup_elem _ _ _ _ H1) as [? ?].
    destruct (key_map_lookup_elem _ _ _ _ H2) as [? ?].
    split_and!; done.
Qed.

(** *** Keyed mode with the two sources exchanged *)

Lemma modified_entry_swap_key cols cols' key r1 r2 :
  (∀ col, col ∈ cols ↔ col ∈ cols') →
  Core.key <$> modified_entry cols key r1 r2
  = Core.key <$> modified_entry cols' key r2 r1.
Proof.
  intros Hcols. unfold modified_entry.
  destruct (cell_changes cols r1 r2) as [|c cs] eqn:H1;
    destruct (cell_changes cols' r2 r1) as [|c' cs'] eqn:H2; try done.
  - exfalso. rewrite cell_changes_nil_iff in H1.
    assert (cell_changes cols' r2 r1 = []) as Hnil; [|congruence].
    apply cell_changes_nil_iff. intros col Hcol. symmetry. by apply H1, Hcols.
  - exfalso. rewrite cell_changes_nil_iff in H2.
    assert (cell_changes cols r1 r2 = []) as Hnil; [|congruence].
    apply cell_changes_nil_iff. intros col Hcol. symmetry. by apply H2, Hcols.
Qed.

Lemma omap_key_ext {A} (F G : A → option RowChange) (l : list A) :
  (∀ x, key <$> F x = key <$> G x) →
  key <$> omap F l = key <$> omap G l.
Proof.
  intros H. induction l as [|x l IH]; [done|]. csimpl.
  specialize (H x). destruct (F x), (G x); simplify_eq/=; [|done].
  by rewrite H, IH.
Qed.

(** Exchanging the old and the new source in keyed mode exchanges additions
    and removals, entry for entry, and leaves the keys of the modified
    entries as they are.  The three lists are filled by loops over sets of
    keys, so each is taken up to the order of its entries. *)
Theorem keyed_swap headers1 rows1 headers2 rows2 keys :
  let '(added, removed, modified) :=
    _compare_unordered headers1 rows1 headers2 rows2 keys in
  let '(added', removed', modified') :=
    _compare_unordered headers2 rows2 headers1 rows1 keys in
  removed'
  ≡ₚ (λ rc, mkRowChange "removed" (key rc) [] (row_new rc) None) <$> added
  ∧ added'
    ≡ₚ (λ rc, mkRowChange "added" (key rc) [] None (row_old rc)) <$> removed
  ∧ key <$> modified' ≡ₚ key <$> modified.
Proof.
  unfold _compare_unordered. simpl. split_and!.
  - by rewrite <- list_fmap_compose.
  - by rewrite <- list_fmap_compose.
  - rewrite (comm_L (∩) (dom (key_map keys rows2))).
    apply reflexive_eq.
    apply omap_key_ext. intros k.
    destruct (key_map keys rows1 !! k) as [r1|]; simpl;
      destruct (key_map keys rows2 !! k) as [r2|]; simpl; try done.
    apply modified_entry_swap_key. intros col.
    rewrite !elem_of_dict_fromkeys, !elem_of_app. tauto.
Qed.

(** *** Multiset mode: what is added balances what is removed *)

Lemma occurrences_count_occ t (ts : list (list string)) :
  occurrences t ts = count_occ (λ x y : list string, decide (x = y)) ts t.
Proof.
  induction ts as [|u ts IH]; [done|].
  rewrite occurrences_cons, IH. simpl. by destruct (decide (u = t)).
Qed.

Lemma occurrences_length (l1 l2 : list (list string)) :
  (∀ t, occurrences t l1 = occurrences t l2) → length l1 = length l2.
Proof.
  intros H. apply Permutation_length.
  apply (Permutation_count_occ (λ x y : list string, decide (x = y))).
  intros t. by rewrite <- !occurrences_count_occ.
Qed.

Lemma length_expand {B} (f : list string → B) (c : Counter) :
  length (mjoin ((λ '(t, n), replicate n (f t)) <$> c)) = sum_list_with snd c.
Proof.
  induction c as [|[t n] c IH]; [done|]. csimpl.
  by rewrite length_app, length_replicate, IH.
Qed.

Lemma occurrences_expand (c : Counter) t :
  NoDup c.*1 →
  occurrences t (mjoin ((λ '(u, n), replicate n u) <$> c)) = counter_get c t.
Proof.
  induction c as [|[u n] c IH]; [done|].
  intros [Hu Hnd]%NoDup_cons. csimpl.
  rewrite occurrences_app, IH by done.
  assert (occurrences t (replicate n u) = if decide (u = t) then n else 0) as ->.
  { clear. induction n as [|n IHn].
    - by destruct (decide (u = t)).
    - change (replicate (S n) u) with (u :: replicate n u).
      rewrite occurrences_cons, IHn. destruct (decide (u = t)); lia. }
  destruct (decide (u = t)) as [->|Hne]; [|done].
  rewrite counter_get_absent by done. lia.
Qed.

(** In multiset mode the additions and the removals account for the
    difference of the two tables: the old row count plus the additions is the
    new row count plus the removals; and no row tuple is both added and
    removed. *)
Theorem multiset_balance headers1 rows1 headers2 rows2 :
  let '(added, removed, modified) :=
    compare_multiset headers1 rows1 headers2 rows2 in
  length rows1 + length added = length rows2 + length removed
  ∧ (∀ t, count_key (KStr t) added = 0 ∨ count_key (KStr t) removed = 0)
  ∧ modified = [].
Proof.
  unfold compare_multiset. simpl.
  set (cols := dict_fromkeys (headers1 ++ headers2)).
  set (c1 := counter_of (to_tuple cols <$> rows1)).
  set (c2 := counter_of (to_tuple cols <$> rows2)).
  assert (NoDup (counter_sub c2 c1).*1) as Hnd21
    by apply counter_sub_NoDup, counter_of_NoDup.
  assert (NoDup (counter_sub c1 c2).*1) as Hnd12
    by apply counter_sub_NoDup, counter_of_NoDup.
  split_and!; [|intros t|done].
  - rewrite !length_expand.
    rewrite <- (length_expand id (counter_sub c2 c1)).
    rewrite <- (length_expand id (counter_sub c1 c2)).
    rewrite <- (length_fmap (to_tuple cols) rows1).
    rewrite <- (length_fmap (to_tuple cols) rows2).
    rewrite <- !length_app. apply occurrences_length. intros t.
    rewrite !occurrences_app, !occurrences_expand by done.
    rewrite !counter_get_sub by apply counter_of_NoDup.
    unfold c1, c2. rewrite !counter_get_of. lia.
  - rewrite !count_key_expand by done.
    rewrite !counter_get_sub by apply counter_of_NoDup. lia.
Qed.

(** *** Row tuples and the rows rebuilt from them *)

Lemma row_of_tuple_fold_absent (cols : list string) (t : list string)
    (m : Row) col :
  col ∉ cols →
  foldl (λ m hv, <[hv.1 := hv.2]> m) m (zip cols t) !! col = m !! col.
Proof.
  revert t m. induction cols as [|c cols IH]; intros [|v t] m Hcol; try done.
  simpl. rewrite IH.
  - apply lookup_insert_ne. intros ->. apply Hcol, list_elem_of_here.
  - intros ?. by apply Hcol, list_elem_of_further.
Qed.

Lemma row_of_tuple_fold_lookup (cols : list string) :
  ∀ (t : list string) (m : Row) i col v,
    NoDup cols → cols !! i = Some col → t !! i = Some v →
    foldl (λ m hv, <[hv.1 := hv.2]> m) m (zip cols t) !! col = Some v.
Proof.
  induction cols as [|c cols IH]; intros [|v0 t] m i col v Hnd Hc Hv; try done.
  apply NoDup_cons in Hnd as [Hc0 Hnd]. destruct i as [|i]; simpl in *.
  - injection Hc as ->. injection Hv as ->.
    rewrite row_of_tuple_fold_absent by done. apply lookup_insert_eq.
  - by eapply IH.
Qed.

(** A tuple over distinct columns is read back unchanged from the row built
    from it, and the row built from a row's tuple agrees with that row on
    every column of the tuple. *)
Theorem row_of_tuple_round_trip (cols : list string) (t : list string) r :
  NoDup cols →
  (length t = length cols → to_tuple cols (row_of_tuple cols t) = t)
  ∧ (∀ col, col ∈ cols →
            row_get (row_of_tuple cols (to_tuple cols r)) col = row_get r col).
Proof.
  intros Hnd. split.
  - intros Hlen. apply list_eq. intros i. unfold to_tuple.
    rewrite list_lookup_fmap.
    destruct (cols !! i) as [col|] eqn:Hc; simpl.
    + destruct (lookup_lt_is_Some_2 t i) as [v Hv].
      { rewrite Hlen. by eapply lookup_lt_Some. }
      rewrite Hv. unfold row_get, row_of_tuple.
      by rewrite (row_of_tuple_fold_lookup cols t ∅ i col v).
    + symmetry. apply lookup_ge_None. rewrite Hlen. by apply lookup_ge_None.
  - intros col [i Hi]%list_elem_of_lookup.
    unfold row_get at 1. unfold row_of_tuple.
    rewrite (row_of_tuple_fold_lookup cols (to_tuple cols r) ∅ i col
               (row_get r col)); [done..|].
    unfold to_tuple. by rewrite list_lookup_fmap, Hi.
Qed.

(** *** Keyed mode on key columns that no record has *)

Lemma make_key_absent keys r :
  (∀ col, col ∈ keys → r !! col = None) →
  _make_key r keys = replicate (length keys) "".
Proof.
  unfold _make_key. induction keys as [|col keys IH]; intros H; [done|].
  csimpl. unfold row_get at 1. rewrite (H col) by apply list_elem_of_here.
  simpl. f_equal. apply IH. intros c Hc. by apply H, list_elem_of_further.
Qed.

Lemma key_map_one_key keys rows k0 :
  (∀ r, r ∈ rows → _make_key r keys = k0) →
  key_map keys rows = match last rows with
                      | Some r => {[k0 := r]}
                      | None => ∅
                      end.
Proof.
  induction rows as [|r rows IH] using rev_ind; intros H; [done|].
  rewrite key_map_snoc, last_snoc, IH.
  - rewrite (H r) by (apply elem_of_app; right; by apply list_elem_of_singleton).
    destruct (last rows).
    + apply insert_singleton_eq.
    + apply insert_empty.
  - intros r' Hr'. apply H, elem_of_app. by left.
Qed.

(** When no record of either table has any of the requested key columns
    (a misspelt column name, say), every record gets the same key of empty
    strings: nothing is added or removed, and only the last record of the old
    table is compared with the last record of the new one. *)
Theorem keyed_unknown_columns headers1 rows1 headers2 rows2 keys r1 r2 :
  (∀ r col, r ∈ rows1 ++ rows2 → col ∈ keys → r !! col = None) →
  last rows1 = Some r1 → last rows2 = Some r2 →
  _compare_unordered headers1 rows1 headers2 rows2 keys
  = ([], [],
     option_list
       (modified_entry (dict_fromkeys (headers1 ++ headers2))
          (KStr (replicate (length keys) "")) r1 r2)).
Proof.
  intros Habs H1 H2. unfold _compare_unordered.
  rewrite (key_map_one_key keys rows1 (replicate (length keys) "")), H1.
  2:{ intros r Hr. apply make_key_absent. intros col Hcol.
      apply Habs; [|done]. apply elem_of_app. by left. }
  rewrite (key_map_one_key keys rows2 (replicate (length keys) "")), H2.
  2:{ intros r Hr. apply make_key_absent. intros col Hcol.
      apply Habs; [|done]. apply elem_of_app. by right. }
  rewrite !dom_singleton_L, difference_diag_L, elements_empty.
  assert (({[replicate (length keys) ""]} : gset (list string))
            ∩ {[replicate (length keys) ""]}
          = {[replicate (length keys) ""]}) as -> by set_solver.
  rewrite elements_singleton. simpl. rewrite !lookup_singleton_eq. simpl.
  by destruct (modified_entry _ _ r1 r2).
Qed.

(** *** Worked instances *)

(** The key column is misspelt ([ID] for [id]): the two rosters differ, yet
    only their last records, which are equal, are compared, and nothing is
    reported. *)
Lemma keyed_unknown_columns_witness :
  _compare_unordered Samples.roster_headers Samples.roster_old
    Samples.roster_headers Samples.roster_new ["ID"]
  = ([], [], []).
Proof.
  rewrite (keyed_unknown_columns Samples.roster_headers Samples.roster_old
             Samples.roster_headers Samples.roster_new ["ID"]
             (Samples.row3 "4" "Dan" "1") (Samples.row3 "4" "Dan" "1")).
  - vm_compute. reflexivity.
  - intros r col Hr Hcol.
    apply list_elem_of_singleton in Hcol as ->.
    unfold Samples.roster_old, Samples.roster_new in Hr. simpl in Hr.
    repeat (apply elem_of_cons in Hr as [->|Hr]; [vm_compute; reflexivity|]).
    by apply elem_of_nil in Hr.
  - reflexivity.
  - reflexivity.
Defined.

Lemma row_of_tuple_round_trip_witness :
  to_tuple ["name"; "val"] (row_of_tuple ["name"; "val"] ["A"; "1"]) = ["A"; "1"]
  ∧ row_get (row_of_tuple ["name"; "val"]
               (to_tuple ["name"; "val"] (Samples.row2 "B" "2"))) "val"
    = row_get (Samples.row2 "B" "2") "val".
Proof.
  assert (NoDup ["name"; "val"]) as Hnd.
  { apply (bool_decide_unpack _). vm_compute. reflexivity. }
  destruct (row_of_tuple_round_trip ["name"; "val"] ["A"; "1"]
              (Samples.row2 "B" "2") Hnd) as [H1 H2].
  split.
  - apply H1. reflexivity.
  - apply H2. apply (bool_decide_unpack _). vm_compute. reflexivity.
Defined.

End CoreExtra.

(** * Properties of the command line *)
Module CliExtra.
Import PyStr Core Cli.

Lemma append_nil_l (t : string) : EmptyString +:+ t = t.
Proof. done. Qed.

Lemma append_cons (x : ascii) (s t : string) :
  String x s +:+ t = String x (s +:+ t).
Proof. done. Qed.

Lemma append_nil_r (s : string) : s +:+ EmptyString = s.
Proof.
  induction s as [|x s IH]; [done|]. by rewrite append_cons, IH.
Qed.

Lemma append_snoc (cur : string) (c : ascii) (s : string) :
  (cur +:+ String c EmptyString) +:+ s = cur +:+ String c s.
Proof.
  induction cur as [|x cur IH]; [done|]. by rewrite !append_cons, IH.
Qed.

Lemma split_on_from_nonempty sep cur s : split_on_from sep cur s ≠ [].
Proof.
  revert cur. induction s as [|c s IH]; intros cur; simpl; [done|].
  by case_decide.
Qed.

Lemma join_cons_nonempty sep w (l : list string) :
  l ≠ [] → join sep (w :: l) = w +:+ sep +:+ join sep l.
Proof. by destruct l. Qed.

Lemma split_on_from_join sep cur s :
  join (String sep EmptyString) (split_on_from sep cur s) = cur +:+ s.
Proof.
  revert cur. induction s as [|c s IH]; intros cur; simpl.
  - by rewrite append_nil_r.
  - destruct (decide (c = sep)) as [->|Hne].
    + rewrite join_cons_nonempty by apply split_on_from_nonempty.
      by rewrite IH.
    + rewrite IH. apply append_snoc.
Qed.

Lemma contains_char_append c (s1 s2 : string) :
  contains_char c (s1 +:+ s2) = contains_char c s1 || contains_char c s2.
Proof.
  induction s1 as [|x s1 IH]; [done|]. rewrite append_cons. simpl.
  by case_decide.
Qed.

Lemma split_on_from_pieces sep cur s w :
  contains_char sep cur = false →
  w ∈ split_on_from sep cur s → contains_char sep w = false.
Proof.
  revert cur. induction s as [|c s IH]; intros cur Hcur; simpl.
  - by intros ->%list_elem_of_singleton.
  - destruct (decide (c = sep)) as [->|Hne].
    + intros [->|Hw]%elem_of_cons; [done|]. by apply (IH EmptyString).
    + apply IH. rewrite contains_char_append, Hcur. simpl.
      by rewrite decide_False.
Qed.

(** Splitting on a separator and joining with it gives the text back; the
    pieces are never none and none of them contains the separator. *)
Lemma split_on_join (sep : ascii) (s : string) :
  join (String sep EmptyString) (split_on sep s) = s
  ∧ split_on sep s ≠ []
  ∧ ∀ w, w ∈ split_on sep s → contains_char sep w = false.
Proof.
  split_and!.
  - apply (split_on_from_join sep EmptyString s).
  - apply split_on_from_nonempty.
  - intros w. by apply split_on_from_pieces.
Qed.

(** *** Stripping *)

Lemma rstrip_idemp (s : string) : rstrip (rstrip s) = rstrip s.
Proof.
  induction s as [|c s IH]; [done|]. simpl.
  destruct (rstrip s) as [|d t] eqn:Hs.
  - destruct (isspace c) eqn:Hc; [done|]. simpl. by rewrite Hc.
  - change (rstrip (String c (String d t)))
      with (match rstrip (String d t) with
            | EmptyString => if isspace c then EmptyString else String c EmptyString
            | u => String c u
            end).
    by rewrite IH.
Qed.

Lemma lstrip_head (s : string) :
  match lstrip s with
  | EmptyString => True
  | String c _ => isspace c = false
  end.
Proof.
  induction s as [|c s IH]; [done|]. simpl.
  destruct (isspace c) eqn:Hc; [done|]. simpl. done.
Qed.

Lemma rstrip_head (c : ascii) (s : string) :
  isspace c = false → ∃ t, rstrip (String c s) = String c t.
Proof.
  intros Hc. simpl. destruct (rstrip s); [|by eexists].
  rewrite Hc. by eexists.
Qed.

Lemma strip_idemp (s : string) : strip (strip s) = strip s.
Proof.
  unfold strip. pose proof (lstrip_head s) as Hhead.
  destruct (lstrip s) as [|c t]; [done|].
  destruct (rstrip_head c t Hhead) as [u Hu]. rewrite Hu.
  assert (lstrip (String c u) = String c u) as -> by (simpl; by rewrite Hhead).
  rewrite <- Hu. apply rstrip_idemp.
Qed.

Lemma contains_char_lstrip c (s : string) :
  contains_char c s = false → contains_char c (lstrip s) = false.
Proof.
  induction s as [|x s IH]; [done|]. simpl.
  destruct (decide (x = c)) as [->|Hne]; [done|]. intros H.
  destruct (isspace x); [by apply IH|]. simpl. by rewrite decide_False.
Qed.

Lemma contains_char_rstrip c (s : string) :
  contains_char c s = false → contains_char c (rstrip s) = false.
Proof.
  induction s as [|x s IH]; [done|]. simpl.
  destruct (decide (x = c)) as [->|Hne]; [done|]. intros H.
  specialize (IH H). destruct (rstrip s) as [|d t].
  - destruct (isspace x); [done|]. simpl. by rewrite decide_False.
  - simpl. rewrite decide_False by done. apply IH.
Qed.

Lemma contains_char_strip c (s : string) :
  contains_char c s = false → contains_char c (strip s) = false.
Proof. intros H. by apply contains_char_rstrip, contains_char_lstrip. Qed.

(** The [--key] option: absent or empty it gives no key columns; otherwise
    it gives at least one column name, and no name contains a comma or has
    white space at either end. *)
Theorem parse_keys_names (ns_key : option string) :
  (parse_keys ns_key = None ↔ ns_key = None ∨ ns_key = Some "")
  ∧ ∀ keys, parse_keys ns_key = Some keys →
            keys ≠ []
            ∧ ∀ k, k ∈ keys → contains_char "," k = false ∧ strip k = k.
Proof.
  unfold parse_keys. split.
  - destruct ns_key as [s|]; [|by split; [left|]].
    destruct (decide (s = "")) as [->|Hs].
    + by split; [right|].
    + split; [done|]. intros [?|[= ?]]; done.
  - intros keys Hkeys. destruct ns_key as [s|]; [|done].
    destruct (decide (s = "")) as [|Hs]; [done|]. injection Hkeys as <-.
    split.
    + intros Hnil%fmap_nil_inv. by apply (split_on_from_nonempty "," "" s).
    + intros k (w & -> & Hw)%list_elem_of_fmap. split.
      * apply contains_char_strip. revert Hw. by apply split_on_from_pieces.
      * apply strip_idemp.
Qed.

(** *** The exit status *)


End CliExtra.

(** * Properties of the report layout *)
Module FormattingExtra.
Import PyStr Core Formatting.

Section layout.
Variable format_row : RowChange → nat → nat → string.

Lemma section_loop_spec title max_rows (changes : list RowChange) :
  ∀ n, n ≤ max_rows →
    section_loop format_row title max_rows n n changes
    = (imap (λ i ch, format_row ch max_rows (n + i))
            (take (max_rows - n) changes)
       ++ (if decide (max_rows - n < length changes)
           then ["- ... and more (" +:+ lower title +:+ ")"] else []),
       n + (max_rows - n) `min` length changes).
Proof.
  induction changes as [|ch changes IH]; intros n Hn; simpl.
  - rewrite take_nil. simpl. f_equal. lia.
  - destruct (decide (max_rows ≤ n)) as [Hle|Hgt].
    + replace (max_rows - n) with 0 by lia. simpl. f_equal. lia.
    + replace (n + 1) with (S n) by lia. rewrite IH by lia.
      replace (max_rows - n) with (S (max_rows - S n)) by lia. simpl.
      f_equal; [|lia]. rewrite Nat.add_0_r. f_equal. f_equal.
      * apply imap_ext. intros i x _. simpl. f_equal. lia.
      * destruct (decide (max_rows - S n < length changes)),
          (decide (S (max_rows - S n) < S (length changes))); done || lia.
Qed.

(** A section of the Markdown report is its heading, then the first
    [max_rows] entries in order, each rendered with its position, then a
    line saying there are more when some were left out, then [- None] when no
    entry was rendered: for an empty list, but also for any list when
    [max_rows] is 0. *)
Theorem section_layout title max_rows (changes : list RowChange) :
  section format_row title max_rows changes
  = ("### " +:+ title)
    :: imap (λ i ch, format_row ch max_rows i) (take max_rows changes)
    ++ (if decide (max_rows < length changes)
        then ["- ... and more (" +:+ lower title +:+ ")"] else [])
    ++ (if decide (max_rows = 0 ∨ changes = []) then ["- None"] else []).
Proof.
  unfold section. rewrite section_loop_spec by lia.
  rewrite Nat.sub_0_r. simpl. f_equal. rewrite <- app_assoc. do 2 f_equal.
  destruct (decide (max_rows `min` length changes = 0)) as [H0|H0],
    (decide (max_rows = 0 ∨ changes = [])) as [H1|H1]; try done.
  - exfalso. apply H1. destruct changes; [by right|]. simpl in H0. left. lia.
  - exfalso. apply H0. destruct H1 as [->| ->]; simpl; lia.
Qed.

End layout.

End FormattingExtra.


(** * Further properties of the matcher *)
Module DifflibExtra.
Import Difflib DifflibSpec.

Section sums.
Variables a b : list ascii.

Lemma blocks_loop_sum fuel :
  ∀ queue acc bl,
    Forall well_formed_range queue →
    blocks_loop a b fuel queue acc = Some bl →
    sum_list_with snd bl ≤ sum_list_with snd acc + sum_list_with span_a queue
    ∧ sum_list_with snd bl ≤ sum_list_with snd acc + sum_list_with span_b queue.
Proof.
  induction fuel as [|fuel IH]; intros [|[[[alo ahi] blo] bhi] queue] acc bl Hq Hbl;
    simpl in Hbl; try done.
  - injection Hbl as <-. simpl. lia.
  - injection Hbl as <-. simpl. lia.
  - apply Forall_cons in Hq as [[Hle Hle'] Hq]. simpl in Hle, Hle'.
    pose proof (find_longest_match_inside a b alo ahi blo bhi Hle Hle') as Hin.
    destruct (find_longest_match a b alo ahi blo bhi) as [[i j] k].
    unfold inside in Hin. simpl in Hin.
    destruct (decide (k = 0)) as [->|Hk].
    + apply IH in Hbl; [|done]. simpl. unfold span_a at 1, span_b at 1.
      simpl. lia.
    + apply IH in Hbl.
      * rewrite !sum_list_with_app in Hbl. simpl.
        unfold span_a at 1, span_b at 1. simpl.
        destruct (decide (alo < i ∧ blo < j)), (decide (i + k < ahi ∧ j + k < bhi));
          simpl in Hbl; unfold span_a, span_b in Hbl; simpl in Hbl;
          fold span_a span_b in Hbl; lia.
      * repeat case_decide; simpl;
          repeat (apply Forall_cons; split); try done;
          unfold well_formed_range; simpl; lia.
Qed.

End sums.

(** The similarity score is a fraction between 0 and 1: the matching blocks
    cover disjoint parts of each string, so their total size is at most the
    length of either, and twice that total is at most the two lengths
    together. *)
Theorem ratio_at_most_one (a b : string) :
  matches (list_ascii_of_string a) (list_ascii_of_string b) ≤ String.length a
  ∧ matches (list_ascii_of_string a) (list_ascii_of_string b) ≤ String.length b
  ∧ num (ratio a b) ≤ den (ratio a b)
  ∧ 0 < den (ratio a b).
Proof.
  assert (matches (list_ascii_of_string a) (list_ascii_of_string b)
          ≤ length (list_ascii_of_string a)
          ∧ matches (list_ascii_of_string a) (list_ascii_of_string b)
            ≤ length (list_ascii_of_string b)) as [Ha Hb].
  { unfold matches.
    destruct (matching_blocks_total (list_ascii_of_string a)
                (list_ascii_of_string b)) as [bl Hbl].
    rewrite Hbl. unfold matching_blocks in Hbl.
    apply blocks_loop_sum in Hbl.
    - unfold span_a, span_b in Hbl. simpl in Hbl. lia.
    - apply Forall_cons. split; [|constructor].
      unfold well_formed_range. simpl. lia. }
  rewrite !TrackerSpec.length_list_ascii_of_string in Ha, Hb.
  split_and!; [done|done| |].
  - unfold ratio. rewrite !TrackerSpec.length_list_ascii_of_string.
    case_decide; simpl; lia.
  - unfold ratio. rewrite !TrackerSpec.length_list_ascii_of_string.
    case_decide; simpl; lia.
Qed.

End DifflibExtra.

(** * Further properties of the change tracker *)
Module TrackerExtra.
Import PyStr ChangeTracker TrackerSpec.

Implicit Types (row : Series) (data : list Series).

(** *** When a record has no key *)

Lemma append_not_empty (e c : string) : e +:+ "|" +:+ c ≠ "".
Proof. by destruct e. Qed.

(** A record is left out of the matching exactly when its normalised name is
    empty and it has no secondary name.  A record whose Name cell is missing
    ([NaN]) is not left out: the name is read as the text [nan], so its key
    starts with [NAN]. *)
Theorem user_key_empty row :
  (create_user_key row = "" ↔ eng_name row = "" ∧ chi_name row = "")
  ∧ (row !! "Name" = Some NaN →
     eng_name row = "NAN" ∧ create_user_key row ≠ "").
Proof.
  unfold create_user_key. split.
  - destruct (decide (chi_name row ≠ "")) as [Hc|Hc].
    + split; [|tauto]. intros H. by apply append_not_empty in H.
    + destruct (decide (chi_name row = "")) as [Hc'|]; [|done]. tauto.
  - intros HNaN. assert (eng_name row = "NAN") as He.
    { unfold eng_name. by rewrite HNaN. }
    split; [done|]. rewrite He. case_decide; [|done].
    apply append_not_empty.
Qed.

(** *** The user maps *)

Lemma users_of_snoc data row :
  users_of (data ++ [row])
  = if decide (create_user_key row = "") then users_of data
    else <[create_user_key row := row]> (users_of data).
Proof. by rewrite users_of_app. Qed.

Lemma users_of_lookup data k :
  k ≠ "" →
  users_of data !! k = last (filter (λ row, create_user_key row = k) data).
Proof.
  intros Hk. induction data as [|row data IH] using rev_ind; [done|].
  rewrite users_of_snoc, filter_app, filter_cons, filter_nil.
  destruct (decide (create_user_key row = k)) as [Heq|Hne].
  - rewrite decide_False by congruence. rewrite Heq.
    by rewrite lookup_insert_eq, last_snoc.
  - rewrite app_nil_r. case_decide; [done|]. by rewrite lookup_insert_ne.
Qed.

Lemma users_of_size data : size (users_of data) ≤ length data.
Proof.
  induction data as [|row data IH] using rev_ind.
  { unfold users_of. simpl. by rewrite map_size_empty. }
  rewrite users_of_snoc, length_app. simpl. case_decide; [lia|].
  destruct (users_of data !! create_user_key row) eqn:Hk.
  - rewrite map_size_insert_Some by done. lia.
  - rewrite map_size_insert_None by done. lia.
Qed.

(** In the user map built by [find_common_users] a key belongs to the last
    record that has it: of several records with one key only the last is
    matched and compared.  The empty key is never in the map, and the map has
    at most as many users as the list has records. *)
Theorem users_of_last_wins data k :
  users_of data !! "" = None
  ∧ (k ≠ "" →
     users_of data !! k = last (filter (λ row, create_user_key row = k) data))
  ∧ size (users_of data) ≤ length data.
Proof.
  split_and!.
  - apply users_of_no_empty.
  - apply users_of_lookup.
  - apply users_of_size.
Qed.

Lemma users_of_lookup_elem data k row :
  users_of data !! k = Some row →
  k ≠ "" ∧ row ∈ data ∧ create_user_key row = k.
Proof.
  intros H. assert (k ≠ "") as Hk.
  { intros ->. by rewrite users_of_no_empty in H. }
  split; [done|]. rewrite users_of_lookup in H by done.
  apply last_Some in H as [l Hl].
  assert (row ∈ filter (λ row, create_user_key row = k) data) as Hin.
  { rewrite Hl. apply elem_of_app. right. by apply list_elem_of_singleton. }
  apply list_elem_of_filter in Hin. tauto.
Qed.

Lemma size_inter_difference (X Y : gset string) :
  size (X ∩ Y) + size (X ∖ Y) = size X.
Proof.
  rewrite <- size_union by set_solver. f_equal.
  apply set_eq. intros x. rewrite elem_of_union, elem_of_intersection,
    elem_of_difference. destruct (decide (x ∈ Y)); tauto.
Qed.

(** [find_common_users] splits the users of each list in two: the common
    users and the resignees make up the old users, the common users and the
    new joiners the new users.  A common user is paired with a record of each
    list, both with its key, which is not empty; the changes and the other
    counters are left as they were. *)
Theorem common_users_partition self :
  let '(common, self') := find_common_users self in
  let st := statistics self' in
  common_users st + resignees st = size (users_of (old_data self))
  ∧ common_users st + new_joiners st = size (users_of (new_data self))
  ∧ common_users st ≤ length (old_data self) `min` length (new_data self)
  ∧ (∀ k o n, common !! k = Some (o, n) →
              k ≠ ""
              ∧ o ∈ old_data self ∧ create_user_key o = k
              ∧ n ∈ new_data self ∧ create_user_key n = k)
  ∧ changes self' = changes self
  ∧ users_with_changes st = users_with_changes (statistics self)
  ∧ total_field_changes st = total_field_changes (statistics self).
Proof.
  unfold find_common_users. simpl.
  assert (size (map_zip (users_of (old_data self)) (users_of (new_data self)))
          = size (dom (users_of (old_data self)) ∩ dom (users_of (new_data self))))
    as Hsize.
  { rewrite <- size_dom. f_equal. apply dom_map_zip_with_L. }
  rewrite Hsize. split_and!; try done.
  - rewrite size_inter_difference. apply size_dom.
  - rewrite (comm_L (∩)), size_inter_difference. apply size_dom.
  - pose proof (users_of_size (old_data self)).
    pose proof (users_of_size (new_data self)).
    pose proof (size_inter_difference (dom (users_of (old_data self)))
                  (dom (users_of (new_data self)))) as H1.
    pose proof (size_inter_difference (dom (users_of (new_data self)))
                  (dom (users_of (old_data self)))) as H2.
    rewrite (comm_L (∩)) in H2. rewrite !size_dom in H1, H2. lia.
  - intros k o n [Ho Hn]%map_lookup_zip_Some. simpl in Ho, Hn.
    destruct (users_of_lookup_elem _ _ _ Ho) as (? & ? & ?).
    destruct (users_of_lookup_elem _ _ _ Hn) as (? & ? & ?).
    done.
Qed.

(** *** The counters of [compare_users] *)

Lemma compare_step_entry acc k (o n : Series) :
  compare_step acc (k, (o, n))
  = match user_entry o n with
    | Some uc => ({[k]} ∪ acc.1.1, acc.1.2 ++ [uc],
                  acc.2 + length (changes_of uc))
    | None => acc
    end.
Proof.
  destruct acc as [[w chs] total]. unfold compare_step, user_entry.
  by destruct (user_changes o n).
Qed.

Lemma compare_fold (l : list (string * (Series * Series))) :
  ∀ acc,
    foldl compare_step acc l
    = (list_to_set (omap (λ e, (λ _, e.1) <$> user_entry e.2.1 e.2.2) l)
         ∪ acc.1.1,
       acc.1.2 ++ omap (λ e, user_entry e.2.1 e.2.2) l,
       acc.2 + sum_list_with (λ uc, length (changes_of uc))
                 (omap (λ e, user_entry e.2.1 e.2.2) l)).
Proof.
  induction l as [|[k [o n]] l IH]; intros [[w chs] total].
  - simpl. rewrite app_nil_r. f_equal; [|lia]. f_equal. set_solver.
  - cbn [foldl]. rewrite IH, compare_step_entry. csimpl.
    destruct (user_entry o n) as [uc|]; csimpl.
    + rewrite <- app_assoc. f_equal; [|lia]. f_equal. set_solver.
    + done.
Qed.

Lemma omap_entry_keys_NoDup (l : list (string * (Series * Series))) :
  NoDup l.*1 →
  NoDup (omap (λ e, (λ _, e.1) <$> user_entry e.2.1 e.2.2) l)
  ∧ length (omap (λ e, (λ _, e.1) <$> user_entry e.2.1 e.2.2) l)
    = length (omap (λ e, user_entry e.2.1 e.2.2) l)
  ∧ ∀ k, k ∈ omap (λ e, (λ _, e.1) <$> user_entry e.2.1 e.2.2) l → k ∈ l.*1.
Proof.
  induction l as [|[k [o n]] l IH]; csimpl.
  - intros _. split_and!; [constructor|done|]. by intros k ?%elem_of_nil.
  - intros [Hk Hnd]%NoDup_cons. destruct (IH Hnd) as (IH1 & IH2 & IH3).
    destruct (user_entry o n) as [uc|]; csimpl.
    + split_and!.
      * apply NoDup_cons. split; [|done]. intros Hin. by apply Hk, IH3.
      * by rewrite IH2.
      * intros k' [->|Hk']%elem_of_cons; [apply list_elem_of_here|].
        by apply list_elem_of_further, IH3.
    + split_and!; [done..|]. intros k' Hk'. by apply list_elem_of_further, IH3.
Qed.

Lemma user_changes_fields_NoDup (o n : Series) :
  NoDup (field <$> user_changes o n)
  ∧ length (user_changes o n) ≤ 5.
Proof.
  unfold user_changes. split.
  - assert (NoDup fields_to_compare) as Hnd.
    { unfold fields_to_compare. repeat (apply NoDup_cons; split);
        [..|constructor];
        intros H; repeat (apply elem_of_cons in H as [H|H]; [done|]);
        by apply elem_of_nil in H. }
    revert Hnd. generalize fields_to_compare.
    induction l as [|f l IH]; csimpl; [constructor|].
    intros [Hf Hnd]%NoDup_cons. unfold detect_field_change at 1.
    case_decide; csimpl; [by apply IH|].
    apply NoDup_cons. split; [|by apply IH].
    intros (c & Hc & (f' & Hf' & Hdet)%list_elem_of_omap)%list_elem_of_fmap.
    unfold detect_field_change in Hdet. case_decide; [done|].
    injection Hdet as <-. simpl in Hc. by subst f'.
  - pose proof (CoreExtra.length_omap_le
                  (λ f, detect_field_change (o !! f) (n !! f) f)
                  fields_to_compare) as H.
    exact H.
Qed.

Lemma omap_user_entry (l : list (string * (Series * Series))) :
  omap (λ e, user_entry e.2.1 e.2.2) l
  = (λ e, mkUserChange (default (Val "") (e.2.1 !! "Name"))
                       (default (Val "") (e.2.1 !! "Chi Name"))
                       (user_changes e.2.1 e.2.2))
    <$> filter (λ e, user_changes e.2.1 e.2.2 ≠ []) l.
Proof.
  induction l as [|[k [o n]] l IH]; [done|]. csimpl.
  rewrite filter_cons. simpl. unfold user_entry at 1.
  destruct (user_changes o n) as [|c cs] eqn:Hc.
  - destruct (decide _) as [Hd|Hd]; [by destruct Hd|]. exact IH.
  - destruct (decide _) as [Hd|Hd]; [|by destruct Hd].
    csimpl. by rewrite IH, Hc.
Qed.

(** [compare_users] appends one entry per matched user that has a change,
    and nothing else: up to their order, the appended entries are those of
    the matched pairs that differ in a compared field, one for each such
    pair, with the old record's names and the pair's changes.
    [users_with_changes] becomes the number of entries appended,
    [total_field_changes] grows by the number of changes they hold; every
    appended entry holds between one and five changes, on distinct fields;
    the other counters are left as they were. *)
Theorem compare_users_accounting (common : gmap string (Series * Series)) self :
  let self' := compare_users common self in
  let entry (o n : Series) :=
    mkUserChange (default (Val "") (o !! "Name"))
                 (default (Val "") (o !! "Chi Name")) (user_changes o n) in
  ∃ new : list UserChange,
    changes self' = changes self ++ new
    ∧ new ≡ₚ (λ e : string * (Series * Series), entry e.2.1 e.2.2)
             <$> filter (λ e : string * (Series * Series),
                           user_changes e.2.1 e.2.2 ≠ [])
                        (map_to_list common)
    ∧ (∀ uc, uc ∈ new ↔
             ∃ k o n, common !! k = Some (o, n)
                      ∧ user_changes o n ≠ [] ∧ uc = entry o n)
    ∧ users_with_changes (statistics self') = length new
    ∧ total_field_changes (statistics self')
      = total_field_changes (statistics self)
        + sum_list_with (λ uc, length (changes_of uc)) new
    ∧ length new ≤ size common
    ∧ (∀ uc, uc ∈ new →
             1 ≤ length (changes_of uc) ≤ 5
             ∧ NoDup (field <$> changes_of uc))
    ∧ common_users (statistics self') = common_users (statistics self)
    ∧ new_joiners (statistics self') = new_joiners (statistics self)
    ∧ resignees (statistics self') = resignees (statistics self).
Proof.
  intros self' entry.
  exists (omap (λ e, user_entry e.2.1 e.2.2) (map_to_list common)).
  subst self'. unfold compare_users. rewrite compare_fold. simpl.
  destruct (omap_entry_keys_NoDup (map_to_list common)) as (Hnd & Hlen & _).
  { apply NoDup_fst_map_to_list. }
  split_and!; try done.
  - by rewrite omap_user_entry.
  - intros uc. rewrite omap_user_entry, list_elem_of_fmap. split.
    + intros ([k [o n]] & -> & [Hd He]%list_elem_of_filter).
      apply elem_of_map_to_list in He. by exists k, o, n.
    + intros (k & o & n & Hk & Hd & ->). exists (k, (o, n)).
      split; [done|]. apply list_elem_of_filter. split; [done|].
      by apply elem_of_map_to_list.
  - rewrite union_empty_r_L, size_list_to_set by done. exact Hlen.
  - etrans; [apply CoreExtra.length_omap_le|]. by rewrite length_map_to_list.
  - intros uc ([k [o n]] & _ & Huc)%list_elem_of_omap. simpl in Huc.
    unfold user_entry in Huc.
    destruct (user_changes_fields_NoDup o n) as [Hnd' Hle].
    destruct (user_changes o n) as [|c cs] eqn:Hucs; [done|].
    injection Huc as <-. simpl. split; [|done]. simpl in Hle. lia.
Qed.

(** The tracker keeps its lists between calls.  A second [compare_users] on
    the same matched users appends the same entries once more and adds their
    changes to [total_field_changes] again, while [users_with_changes] is
    the count of the last call alone. *)
Theorem compare_users_twice (common : gmap string (Series * Series)) self :
  let once := compare_users common self in
  let twice := compare_users common once in
  ∃ new,
    changes once = changes self ++ new
    ∧ changes twice = changes self ++ new ++ new
    ∧ total_field_changes (statistics twice)
      = total_field_changes (statistics self)
        + 2 * sum_list_with (λ uc, length (changes_of uc)) new
    ∧ users_with_changes (statistics twice)
      = users_with_changes (statistics once).
Proof.
  exists (omap (λ e, user_entry e.2.1 e.2.2) (map_to_list common)).
  unfold compare_users. rewrite !compare_fold. simpl. rewrite ?compare_fold.
  simpl. split_and!; [done| |lia|done].
  by rewrite <- app_assoc.
Qed.

(** *** Blank values *)

Lemma lstrip_empty_iff (s : string) : lstrip s = "" ↔ all_space s = true.
Proof.
  induction s as [|c s IH]; [done|]. simpl.
  destruct (isspace c); simpl; [done|]. split; done.
Qed.

Lemma strip_empty_iff (s : string) : strip s = "" ↔ all_space s = true.
Proof.
  rewrite <- lstrip_empty_iff. unfold strip.
  pose proof (CliExtra.lstrip_head s) as Hhead.
  destruct (lstrip s) as [|c t]; [done|].
  destruct (CliExtra.rstrip_head c t Hhead) as [u ->]. split; done.
Qed.

Lemma normalized_empty : normalized "" = "".
Proof. reflexivity. Qed.

Lemma blank_values_none (old_v new_v : option Cell) f :
  value_str old_v = "" → value_str new_v = "" →
  detect_field_change old_v new_v f = None.
Proof.
  intros Ho Hn. unfold detect_field_change. rewrite Ho, Hn.
  by rewrite decide_True.
Qed.

(** A cell counts as blank when it is missing, [NaN] or white space only;
    the classifier sees no change between two blank cells. *)
Theorem blank_values (old_v new_v : option Cell) f :
  (value_str old_v = ""
   ↔ isna old_v = true ∨ ∃ s, old_v = Some (Val s) ∧ all_space s = true)
  ∧ (value_str old_v = "" → value_str new_v = "" →
     detect_field_change old_v new_v f = None).
Proof.
  split.
  - destruct old_v as [[|s]|]; simpl.
    + split; [by left|done].
    + rewrite strip_empty_iff. split.
      * intros H. right. by exists s.
      * intros [?|(s' & [= <-] & ?)]; done.
    + split; [by left|done].
  - apply blank_values_none.
Qed.

(** *** The labels *)

Lemma classify_added (o n : string) sim :
  ¬ (o = "" ∧ n = "") → (classify o n sim = "Added" ↔ o = "").
Proof.
  intros Hnot. unfold classify.
  destruct (decide (o = "" ∧ n ≠ "")) as [[-> ?]|H1]; [done|].
  assert (o ≠ "") as Ho.
  { intros ->. destruct (decide (n = "")) as [->|?]; tauto. }
  split; [|done].
  destruct (decide (o ≠ "" ∧ n = "")); [done|].
  destruct (Difflib.ratio_gt sim 8 10); [done|].
  by destruct (Difflib.ratio_gt sim 5 10).
Qed.

Lemma classify_removed (o n : string) sim :
  ¬ (o = "" ∧ n = "") → (classify o n sim = "Removed" ↔ n = "").
Proof.
  intros Hnot. unfold classify.
  destruct (decide (o = "" ∧ n ≠ "")) as [[-> ?]|H1]; [done|].
  destruct (decide (o ≠ "" ∧ n = "")) as [[? ->]|H2]; [done|].
  assert (n ≠ "") as Hn.
  { intros ->. destruct (decide (o = "")) as [->|?]; tauto. }
  split; [|done].
  destruct (Difflib.ratio_gt sim 8 10); [done|].
  by destruct (Difflib.ratio_gt sim 5 10).
Qed.

Lemma classify_labels (o n : string) sim :
  classify o n sim ∈ ["Added"; "Removed"; "Minor Change (Possible Typo)";
                      "Moderate Change"; "Major Change"].
Proof.
  unfold classify. repeat case_decide; repeat case_match;
    repeat (first [apply list_elem_of_here | apply list_elem_of_further]).
Qed.

(** A reported change carries the field name and the two trimmed values,
    which are not both empty.  Its label is one of the five; it is [Added]
    exactly when the old value is blank and [Removed] exactly when the new
    value is blank. *)
Theorem change_type_cases (old_v new_v : option Cell) f c :
  detect_field_change old_v new_v f = Some c →
  field c = f
  ∧ old_value c = value_str old_v ∧ new_value c = value_str new_v
  ∧ ¬ (value_str old_v = "" ∧ value_str new_v = "")
  ∧ (change_type c = "Added" ↔ value_str old_v = "")
  ∧ (change_type c = "Removed" ↔ value_str new_v = "")
  ∧ change_type c ∈ ["Added"; "Removed"; "Minor Change (Possible Typo)";
                     "Moderate Change"; "Major Change"].
Proof.
  unfold detect_field_change. case_decide as Hne; [done|]. intros [= <-]. simpl.
  assert (¬ (value_str old_v = "" ∧ value_str new_v = "")) as Hnot.
  { intros [Ho Hn]. apply Hne. by rewrite Ho, Hn. }
  split_and!; try done.
  - by apply classify_added.
  - by apply classify_removed.
  - apply classify_labels.
Qed.

(** Exchanging the old and the new value: either both directions report
    nothing or both report a change, with the two values exchanged, and an
    addition in one direction is a removal in the other. *)
Theorem detect_swap (old_v new_v : option Cell) f :
  (detect_field_change old_v new_v f = None
   ↔ detect_field_change new_v old_v f = None)
  ∧ ∀ c c',
      detect_field_change old_v new_v f = Some c →
      detect_field_change new_v old_v f = Some c' →
      old_value c' = new_value c ∧ new_value c' = old_value c
      ∧ (change_type c = "Added" ↔ change_type c' = "Removed")
      ∧ (change_type c = "Removed" ↔ change_type c' = "Added").
Proof.
  unfold detect_field_change. split.
  - destruct (decide (normalized (value_str old_v) = normalized (value_str new_v)))
      as [Heq|Hne].
    + by rewrite decide_True.
    + by rewrite decide_False by congruence.
  - intros c c'. case_decide as Hne; [done|].
    rewrite decide_False by congruence. intros [= <-] [= <-]. simpl.
    assert (¬ (value_str old_v = "" ∧ value_str new_v = "")) as Hnot.
    { intros [Ho Hn]. apply Hne. by rewrite Ho, Hn. }
    assert (¬ (value_str new_v = "" ∧ value_str old_v = "")) as Hnot' by tauto.
    split_and!; [done|done| |].
    + by rewrite classify_added, classify_removed.
    + by rewrite classify_added, classify_removed.
Qed.

(** *** The re-check of [comprehensive_check.py] *)

Lemma check_value_agrees (v : option Cell) :
  v ≠ Some NaN → Check.check_value v = value_str v.
Proof. by destruct v as [[|s]|]. Qed.

(** On a matched pair with no [NaN] cell among the five fields the re-check
    finds exactly the changes the tracker reports, so it finds nothing for a
    user the tracker left unchanged.  A [NaN] cell it reads as the text
    [nan]: against a cell of white space the tracker reports nothing and the
    re-check reports a change. *)
Theorem recheck_agrees (o n : Series) :
  ((∀ f, f ∈ fields_to_compare → o !! f ≠ Some NaN ∧ n !! f ≠ Some NaN) →
   Check.user_missed_changes o n = user_changes o n)
  ∧ (∀ f s, o !! f = Some NaN → n !! f = Some (Val s) → all_space s = true →
            detect_field_change (o !! f) (n !! f) f = None
            ∧ Check.missed_field_change o n f
              = Some (mkChange f "nan" "" "Removed" (Difflib.mkRatio 0 3))).
Proof.
  split.
  - intros H. unfold Check.user_missed_changes, user_changes.
    apply list_omap_ext. apply Forall2_same_length_lookup. split; [done|].
    intros i f f' Hf Hf'. change Check.fields_to_check with fields_to_compare in Hf.
    assert (f' = f) as -> by congruence.
    destruct (H f) as [Ho Hn]; [by eapply list_elem_of_lookup_2|].
    unfold Check.missed_field_change, detect_field_change.
    by rewrite !check_value_agrees.
  - intros f s Ho Hn Hs. apply strip_empty_iff in Hs. split.
    + apply blank_values_none; rewrite ?Ho, ?Hn; simpl; done.
    + unfold Check.missed_field_change, Check.check_value.
      rewrite Ho, Hn. simpl. rewrite Hs. reflexivity.
Qed.

(** *** The normalised name *)

Lemma prefix_empty (s : string) : String.prefix "" s = true.
Proof. by destruct s. Qed.

Lemma replace_char_cons (c : ascii) (new : string) (x : ascii) (s : string) :
  replace (String c EmptyString) new (String x s)
  = if decide (c = x) then new +:+ replace (String c EmptyString) new s
    else String x (replace (String c EmptyString) new s).
Proof.
  unfold replace. cbn [replace_from String.prefix String.length Nat.sub].
  destruct (ascii_dec c x) as [->|Hne].
  - by rewrite prefix_empty, decide_True.
  - by rewrite decide_False.
Qed.

Lemma contains_replace_char (d c : ascii) (new s : string) :
  contains_char d new = false →
  d = c ∨ contains_char d s = false →
  contains_char d (replace (String c EmptyString) new s) = false.
Proof.
  intros Hnew. induction s as [|x s IH]; intros Hs; [done|].
  rewrite replace_char_cons. destruct (decide (c = x)) as [->|Hne].
  - rewrite CliExtra.contains_char_append, Hnew. simpl. apply IH.
    destruct Hs as [->|Hs]; [by left|]. right. simpl in Hs.
    by destruct (decide (x = d)).
  - simpl. destruct (decide (x = d)) as [->|Hxd].
    + destruct Hs as [->|Hs]; [done|]. simpl in Hs.
      by rewrite decide_True in Hs.
    + apply IH. destruct Hs as [->|Hs]; [by left|]. right. simpl in Hs.
      by rewrite decide_False in Hs.
Qed.

(** A normalised name holds no comma, no period and no hyphen, and no white
    space at either end. *)
Theorem normalize_name_clean (name : string) :
  contains_char "," (normalize_name name) = false
  ∧ contains_char "." (normalize_name name) = false
  ∧ contains_char "-" (normalize_name name) = false
  ∧ strip (normalize_name name) = normalize_name name.
Proof.
  unfold normalize_name. case_decide; [done|].
  set (n0 := upper (join " " (split name))).
  split_and!.
  - apply CliExtra.contains_char_strip.
    apply contains_replace_char; [done|]. right.
    apply contains_replace_char; [done|]. right.
    apply contains_replace_char; [done|]. by left.
  - apply CliExtra.contains_char_strip.
    apply contains_replace_char; [done|]. right.
    apply contains_replace_char; [done|]. by left.
  - apply CliExtra.contains_char_strip.
    apply contains_replace_char; [done|]. by left.
  - apply CliExtra.strip_idemp.
Qed.

Lemma map_chars_append f (s t : string) :
  map_chars f (s +:+ t) = map_chars f s +:+ map_chars f t.
Proof.
  induction s as [|x s IH]; [done|].
  rewrite CliExtra.append_cons. simpl. rewrite IH.
  by rewrite CliExtra.append_cons.
Qed.

Lemma split_from_map f (cur : option string) (s : string) :
  (∀ c, isspace (f c) = isspace c) →
  split_from (map_chars f <$> cur) (map_chars f s)
  = map_chars f <$> split_from cur s.
Proof.
  intros Hf. revert cur. induction s as [|c s IH]; intros cur.
  - by destruct cur.
  - cbn [map_chars split_from]. rewrite Hf. destruct (isspace c).
    + destruct cur as [w|]; csimpl; by rewrite <- (IH None).
    + rewrite <- IH. f_equal. csimpl. f_equal.
      destruct cur as [w|]; csimpl; [|done]. by rewrite map_chars_append.
Qed.

Lemma join_map f (sep : string) (l : list string) :
  map_chars f (join sep l) = join (map_chars f sep) (map_chars f <$> l).
Proof.
  induction l as [|w l IH]; [done|]. destruct l as [|w' l]; [done|].
  change (join sep (w :: w' :: l)) with (w +:+ sep +:+ join sep (w' :: l)).
  rewrite !map_chars_append, IH. done.
Qed.

Lemma map_chars_compose f g (s : string) :
  map_chars f (map_chars g s) = map_chars (λ c, f (g c)) s.
Proof. induction s as [|c s IH]; simpl; [done|]. by rewrite IH. Qed.

Lemma map_chars_ext f g (s : string) :
  (∀ c, f c = g c) → map_chars f s = map_chars g s.
Proof. intros H. induction s as [|c s IH]; simpl; [done|]. by rewrite H, IH. Qed.

Lemma upper_lower_char (c : ascii) : upper_char (lower_char c) = upper_char c.
Proof. destruct c as [[] [] [] [] [] [] [] []]; reflexivity. Qed.

Lemma upper_upper_char (c : ascii) : upper_char (upper_char c) = upper_char c.
Proof. destruct c as [[] [] [] [] [] [] [] []]; reflexivity. Qed.

Lemma isspace_lower_char (c : ascii) : isspace (lower_char c) = isspace c.
Proof. destruct c as [[] [] [] [] [] [] [] []]; reflexivity. Qed.

Lemma isspace_upper_char (c : ascii) : isspace (upper_char c) = isspace c.
Proof. destruct c as [[] [] [] [] [] [] [] []]; reflexivity. Qed.

Lemma normalize_name_map f (name : string) :
  (∀ c, isspace (f c) = isspace c) →
  (∀ c, upper_char (f c) = upper_char c) →
  f " "%char = " "%char →
  normalize_name (map_chars f name) = normalize_name name.
Proof.
  intros Hspace Hupper Hsp. unfold normalize_name.
  destruct (decide (name = "")) as [->|Hne]; [done|].
  rewrite decide_False by (destruct name; done).
  assert (upper (join " " (split (map_chars f name)))
          = upper (join " " (split name))) as ->; [|done].
  unfold split.
  rewrite (split_from_map f None name Hspace
           : split_from None (map_chars f name) = _).
  unfold upper.
  trans (map_chars upper_char (map_chars f (join " " (split_from None name)))).
  - f_equal. rewrite join_map. simpl. by rewrite Hsp.
  - rewrite map_chars_compose. by apply map_chars_ext.
Qed.

(** The identity key does not depend on the letter case of the name: a
    record keeps its key when its Name is put in lower case or in upper
    case. *)
Theorem user_key_ignores_case (row : Series) (name : string) :
  normalize_name (lower name) = normalize_name name
  ∧ normalize_name (upper name) = normalize_name name
  ∧ create_user_key (<["Name" := Val (lower name)]> row)
    = create_user_key (<["Name" := Val name]> row)
  ∧ create_user_key (<["Name" := Val (upper name)]> row)
    = create_user_key (<["Name" := Val name]> row).
Proof.
  assert (normalize_name (lower name) = normalize_name name) as Hl.
  { apply normalize_name_map;
      [apply isspace_lower_char|apply upper_lower_char|done]. }
  assert (normalize_name (upper name) = normalize_name name) as Hu.
  { apply normalize_name_map;
      [apply isspace_upper_char|apply upper_upper_char|done]. }
  assert (∀ s, eng_name (<["Name" := Val s]> row) = normalize_name s) as He.
  { intros s. unfold eng_name. by rewrite lookup_insert_eq. }
  assert (∀ s, chi_name (<["Name" := Val s]> row) = chi_name row) as Hc.
  { intros s. unfold chi_name. by rewrite lookup_insert_ne. }
  split_and!; [done|done| |].
  - unfold create_user_key. by rewrite !He, !Hc, Hl.
  - unfold create_user_key. by rewrite !He, !Hc, Hu.
Qed.

(** *** Worked instances *)

(** A phone number appears where the old cell was missing: an addition. *)
Lemma change_type_cases_witness :
  change_type (mkChange "Phone" "" "x123" "Added" (Difflib.mkRatio 0 4))
  = "Added"
  ↔ value_str (Some NaN) = "".
Proof.
  destruct (change_type_cases (Some NaN) (Some (Val " x123")) "Phone"
              (mkChange "Phone" "" "x123" "Added" (Difflib.mkRatio 0 4)))
    as (_ & _ & _ & _ & H & _).
  - vm_compute. reflexivity.
  - exact H.
Defined.

(** A record with a Phone on both sides is re-checked as the tracker sees
    it; a [NaN] Phone against a blank one is not. *)
Lemma recheck_agrees_witness :
  Check.user_missed_changes (Samples.person "Ann Lee" "AL" "Clerk")
    (Samples.person "ANN LEE" "AL" "Manager")
  = user_changes (Samples.person "Ann Lee" "AL" "Clerk")
      (Samples.person "ANN LEE" "AL" "Manager")
  ∧ detect_field_change (Some NaN) (Some (Val "  ")) "Phone" = None
  ∧ Check.missed_field_change (<["Phone" := NaN]> ∅)
      (<["Phone" := Val "  "]> ∅) "Phone"
    = Some (mkChange "Phone" "nan" "" "Removed" (Difflib.mkRatio 0 3)).
Proof.
  split.
  - apply (proj1 (recheck_agrees (Samples.person "Ann Lee" "AL" "Clerk")
                    (Samples.person "ANN LEE" "AL" "Manager"))).
    intros f Hf. unfold fields_to_compare in Hf.
    repeat (apply elem_of_cons in Hf as [->|Hf];
            [split; vm_compute; discriminate|]).
    by apply elem_of_nil in Hf.
  - pose proof (proj2 (recheck_agrees (<["Phone" := NaN]> ∅)
                         (<["Phone" := Val "  "]> ∅)) "Phone" "  "
                  eq_refl eq_refl eq_refl) as H.
    exact H.
Defined.

End TrackerExtra.
